(** * Iris messaging framework: the block-circular queue and the encrypted link

    A shallow embedding of [container/queue/queue.go] and of
    [proto/link/link.go], with the properties of their specification.

    Go's [int] is modelled as [Z]; every index of the queue is bounded by
    the number of blocks or by the block size, so that the 64-bit
    wrap-around is out of reach.  A Go slice is a reference to a backing
    array: the blocks of the queue live in a heap and the queue holds
    references to them, so that the aliases [head] and [tail] of
    [blocks[headIdx]] and [blocks[tailIdx]] are modelled as such. *)

From Stdlib Require Import ZArith Lia Bool String DecimalString.
From Stdlib Require Import Strings.Byte.
From stdpp Require Import base list.

#[local] Open Scope Z_scope.

Module Queue.

(** ** Indexing, as Go does it: a run-time panic out of range *)

(** [l[i]] for a Go [int] index; [None] is the out-of-range panic. *)
Definition zlookup {T} (l : list T) (i : Z) : option T :=
  if bool_decide (0 ≤ i) then l !! Z.to_nat i else None.

(** [l[i] = x] for a Go [int] index; [None] is the out-of-range panic. *)
Definition zupdate {T} (l : list T) (i : Z) (x : T) : option (list T) :=
  if bool_decide (0 ≤ i < Z.of_nat (length l))
  then Some (<[Z.to_nat i := x]> l) else None.

Section queue.

(** The element type of the items; a slot is an [interface{}], which is
    either [nil] ([None]) or holds an item. *)
Context {A : Type}.

#[local] Abbreviation iface := (option A).

(** A block is the backing array of a [[]interface{}]; the heap holds the
    backing arrays that the slices of the queue reference, and a reference
    is the position of the array in the heap. *)
#[local] Abbreviation block := (list iface).
#[local] Abbreviation ref := nat.
#[local] Abbreviation Heap := (list block).

Definition nil_iface : iface := None.

(** [const blockSize = 4096] *)
Definition blockSize : Z := 4096.

(** [make([]interface{}, blockSize)]: a fresh array of [nil] slots. *)
Definition new_block : block := replicate (Z.to_nat blockSize) nil_iface.

Definition alloc (h : Heap) : ref * Heap := (length h, h ++ [new_block]).

(** [s[off]] where the slice [s] references block [r]. *)
Definition load (h : Heap) (r : ref) (off : Z) : option iface :=
  blk ← h !! r; zlookup blk off.

(** [s[off] = x] where the slice [s] references block [r]. *)
Definition store (h : Heap) (r : ref) (off : Z) (x : iface) : option Heap :=
  blk ← h !! r; blk' ← zupdate blk off x; Some (<[r := blk']> h).

(** [type Queue struct] *)
Record Queue : Type := mkQueue {
  tailIdx : Z;
  headIdx : Z;
  tailOff : Z;
  headOff : Z;
  blocks : list ref;
  head : ref;
  tail : ref
}.

(** The queue is used through a pointer: a state is the heap of the block
    arrays together with the fields of the struct. *)
Definition State : Type := Heap * Queue.

(** [func New() *Queue] *)
Definition New (h : Heap) : State :=
  let '(r, h') := alloc h in
  (h', {| tailIdx := 0; headIdx := 0; tailOff := 0; headOff := 0;
          blocks := [r]; head := r; tail := r |}).

(** [func (q *Queue) Push(data interface{})] *)
Definition Push (data : iface) (s : State) : option State :=
  let '(h, q) := s in
  h1 ← store h (tail q) (tailOff q) data;
  let off := tailOff q + 1 in
  if bool_decide (off = blockSize) then
    let n := Z.of_nat (length (blocks q)) in
    if bool_decide (n = 0) then None else
    let ti := Z.rem (tailIdx q + 1) n in
    if bool_decide (ti = headIdx q) then
      (* buffer[:ti], q.blocks[:ti], buffer[ti+1:], q.blocks[ti:] *)
      if bool_decide (0 ≤ ti ≤ n) then
        let '(r, h2) := alloc h1 in
        let buffer := take (Z.to_nat ti) (blocks q) ++ [r]
                        ++ drop (Z.to_nat ti) (blocks q) in
        let hi := headIdx q + 1 in
        hd ← zlookup buffer hi;
        tl ← zlookup buffer ti;
        Some (h2, {| tailIdx := ti; headIdx := hi; tailOff := 0;
                     headOff := headOff q; blocks := buffer;
                     head := hd; tail := tl |})
      else None
    else
      tl ← zlookup (blocks q) ti;
      Some (h1, {| tailIdx := ti; headIdx := headIdx q; tailOff := 0;
                   headOff := headOff q; blocks := blocks q;
                   head := head q; tail := tl |})
  else
    Some (h1, {| tailIdx := tailIdx q; headIdx := headIdx q; tailOff := off;
                 headOff := headOff q; blocks := blocks q;
                 head := head q; tail := tail q |}).

(** [func (q *Queue) Pop() (res interface{})] *)
Definition Pop (s : State) : option (iface * State) :=
  let '(h, q) := s in
  res ← load h (head q) (headOff q);
  h1 ← store h (head q) (headOff q) nil_iface;
  let off := headOff q + 1 in
  if bool_decide (off = blockSize) then
    let n := Z.of_nat (length (blocks q)) in
    if bool_decide (n = 0) then None else
    let hi := Z.rem (headIdx q + 1) n in
    hd ← zlookup (blocks q) hi;
    Some (res, (h1, {| tailIdx := tailIdx q; headIdx := hi;
                       tailOff := tailOff q; headOff := 0;
                       blocks := blocks q; head := hd; tail := tail q |}))
  else
    Some (res, (h1, {| tailIdx := tailIdx q; headIdx := headIdx q;
                       tailOff := tailOff q; headOff := off;
                       blocks := blocks q; head := head q; tail := tail q |})).

(** [func (q *Queue) Front() interface{}] *)
Definition Front (s : State) : option iface :=
  let '(h, q) := s in load h (head q) (headOff q).

(** [func (q *Queue) Empty() bool] *)
Definition Empty (q : Queue) : bool :=
  bool_decide (headIdx q = tailIdx q) && bool_decide (headOff q = tailOff q).

(** [func (q *Queue) Size() int] *)
Definition Size (q : Queue) : Z :=
  if bool_decide (tailIdx q > headIdx q) then
    (tailIdx q - headIdx q) * blockSize - headOff q + tailOff q
  else if bool_decide (tailIdx q < headIdx q) then
    (Z.of_nat (length (blocks q)) - headIdx q + tailIdx q) * blockSize
      - headOff q + tailOff q
  else
    tailOff q - headOff q.

(** The inner loop of [Reset]: [for i := 0; i < len(block); i++ { block[i] = nil }] *)
Definition clear_block (h : Heap) (r : ref) : option Heap :=
  blk ← h !! r; Some (<[r := replicate (length blk) nil_iface]> h).

(** The outer loop of [Reset]: [for _, block := range q.blocks] *)
Fixpoint clear_blocks (h : Heap) (rs : list ref) : option Heap :=
  match rs with
  | [] => Some h
  | r :: rs' => h' ← clear_block h r; clear_blocks h' rs'
  end.

(** [func (q *Queue) Reset()] *)
Definition Reset (s : State) : option State :=
  let '(h, q) := s in
  hd ← zlookup (blocks q) 0;
  tl ← zlookup (blocks q) 0;
  h' ← clear_blocks h (blocks q);
  Some (h', {| tailIdx := 0; headIdx := 0; tailOff := 0; headOff := 0;
               blocks := blocks q; head := hd; tail := tl |}).

(** ** Runs of operations *)

Fixpoint push_all (vs : list iface) (s : State) : option State :=
  match vs with
  | [] => Some s
  | v :: vs' => s' ← Push v s; push_all vs' s'
  end.

Fixpoint pop_n (n : nat) (s : State) : option (list iface * State) :=
  match n with
  | O => Some ([], s)
  | S n' =>
      '(v, s') ← Pop s;
      '(vs, s'') ← pop_n n' s';
      Some (v :: vs, s'')
  end.

(** ** The index invariant *)

(** Block [r] is allocated, with [blockSize] slots. *)
Definition allocated (h : Heap) (r : ref) : Prop :=
  ∃ blk, h !! r = Some blk ∧ Z.of_nat (length blk) = blockSize.

(** The offsets lie inside a block, the indices inside the ring, [head] and
    [tail] alias the blocks at the two indices, and every block of the ring
    is an allocated array of [blockSize] slots. *)
Definition wf (s : State) : Prop :=
  let '(h, q) := s in
  0 ≤ headOff q < blockSize ∧ 0 ≤ tailOff q < blockSize ∧
  0 ≤ headIdx q < Z.of_nat (length (blocks q)) ∧
  0 ≤ tailIdx q < Z.of_nat (length (blocks q)) ∧
  zlookup (blocks q) (headIdx q) = Some (head q) ∧
  zlookup (blocks q) (tailIdx q) = Some (tail q) ∧
  ∀ r, r ∈ blocks q → allocated h r.

(** ** The items of the queue *)

(** The index in [blocks] of the [j]-th block of the ring, counted from the
    head block. *)
Definition ring_idx (q : Queue) (j : Z) : Z :=
  let n := Z.of_nat (length (blocks q)) in
  if bool_decide (headIdx q + j < n) then headIdx q + j else headIdx q + j - n.

(** The slot [p] positions after the first slot of the head block. *)
Definition cell (h : Heap) (q : Queue) (p : Z) : option iface :=
  r ← zlookup (blocks q) (ring_idx q (p / blockSize));
  load h r (p mod blockSize).

(** The queue holds the items [l], oldest first: they lie in the slots that
    follow the head slot, the tail slot follows the last of them, the tail
    has not caught up with the head block, and no block occurs twice in the
    ring. *)
Definition repr (s : State) (l : list iface) : Prop :=
  let '(h, q) := s in
  let p := headOff q + Z.of_nat (length l) in
  wf s ∧ NoDup (blocks q) ∧
  p < Z.of_nat (length (blocks q)) * blockSize ∧
  tailIdx q = ring_idx q (p / blockSize) ∧
  tailOff q = p mod blockSize ∧
  ∀ (i : nat) x, l !! i = Some x → cell h q (headOff q + Z.of_nat i) = Some x.

(** A call of one of the operations, and what it returns. *)
Inductive op : Type :=
  | OpPush (data : iface)
  | OpPop
  | OpFront
  | OpReset.

Definition exec (o : op) (s : State) : option (option iface * State) :=
  match o with
  | OpPush data => s' ← Push data s; Some (None, s')
  | OpPop => '(v, s') ← Pop s; Some (Some v, s')
  | OpFront => v ← Front s; Some (Some v, s)
  | OpReset => s' ← Reset s; Some (None, s')
  end.

Fixpoint run (os : list op) (s : State) : option State :=
  match os with
  | [] => Some s
  | o :: os' => '(_, s') ← exec o s; run os' s'
  end.

Definition is_push (o : op) : bool :=
  match o with OpPush _ => true | _ => false end.

Definition is_pop (o : op) : bool :=
  match o with OpPop => true | _ => false end.

(** The numbers of pushes and of pops of a run. *)
Fixpoint pushes (os : list op) : Z :=
  match os with
  | [] => 0
  | o :: os' => (if is_push o then 1 else 0) + pushes os'
  end.

Fixpoint pops (os : list op) : Z :=
  match os with
  | [] => 0
  | o :: os' => (if is_pop o then 1 else 0) + pops os'
  end.

(** A run made of pushes and pops only, in which no pop finds the queue
    empty: every prefix has at least as many pushes as pops. [k] is the
    number of items at the start. *)
Fixpoint push_pop_run (k : nat) (os : list op) : bool :=
  match os with
  | [] => true
  | OpPush _ :: os' => push_pop_run (S k) os'
  | OpPop :: os' =>
      match k with
      | O => false
      | S k' => push_pop_run k' os'
      end
  | _ :: _ => false
  end.

(** ** The queue as a list *)

(** A run of operations that keeps what each call returns. *)
Fixpoint run_out (os : list op) (s : State) : option (list (option iface) * State) :=
  match os with
  | [] => Some ([], s)
  | o :: os' =>
      '(res, s') ← exec o s;
      '(outs, s'') ← run_out os' s';
      Some (res :: outs, s'')
  end.

(** The operations on the list of the items, oldest first: what a call
    returns and the list afterwards.  [Pop] and [Front] do no bounds
    checking; the list has no answer for them when it is empty. *)
Definition list_exec (o : op) (l : list iface) : option (option iface * list iface) :=
  match o with
  | OpPush data => Some (None, l ++ [data])
  | OpPop => match l with x :: l' => Some (Some x, l') | [] => None end
  | OpFront => match l with x :: _ => Some (Some x, l) | [] => None end
  | OpReset => Some (None, [])
  end.

Fixpoint list_run (os : list op) (l : list iface)
    : option (list (option iface) * list iface) :=
  match os with
  | [] => Some ([], l)
  | o :: os' =>
      '(res, l') ← list_exec o l;
      '(outs, l'') ← list_run os' l';
      Some (res :: outs, l'')
  end.

(** Every slot of the ring that holds none of the items [l] is [nil]. *)
Definition clean (s : State) (l : list iface) : Prop :=
  let '(h, q) := s in
  ∀ p, 0 ≤ p < Z.of_nat (length (blocks q)) * blockSize →
       ¬ (headOff q ≤ p < headOff q + Z.of_nat (length l)) →
       cell h q p = Some nil_iface.

(** The number of slots of the ring. *)
Definition capacity (q : Queue) : Z := Z.of_nat (length (blocks q)) * blockSize.

End queue.

Arguments new_block : simpl never.

End Queue.

(** * The encrypted link *)

Module Link.

#[local] Open Scope string_scope.

#[local] Abbreviation bytes := (list byte).

#[export] Instance byte_eq_dec : EqDecision byte := Byte.byte_eq_dec.

(** A Go [error] value, by its text. *)
Definition error : Type := string.

(** The outcome of a call that returns a value and an [error]. *)
Inductive result (R : Type) : Type :=
  | Ok (r : R)
  | Err (e : error).
Arguments Ok {R} r.
Arguments Err {R} e.

(** ** Bytes *)

(** [a ^ b] on bytes. *)
Definition byte_xor (a b : byte) : byte :=
  let '(a0, (a1, (a2, (a3, (a4, (a5, (a6, a7))))))) := Byte.to_bits a in
  let '(b0, (b1, (b2, (b3, (b4, (b5, (b6, b7))))))) := Byte.to_bits b in
  Byte.of_bits (xorb a0 b0, (xorb a1 b1, (xorb a2 b2, (xorb a3 b3,
               (xorb a4 b4, (xorb a5 b5, (xorb a6 b6, xorb a7 b7))))))).

(** The loop of the Go library's [bytes.Equal] on slices of one length: it
    returns at the first pair of bytes that differ.  The second component
    counts the pairs of bytes compared. *)
Fixpoint equal_scan (a b : bytes) : bool * nat :=
  match a, b with
  | x :: a', y :: b' =>
      if Byte.eqb x y
      then let '(r, n) := equal_scan a' b' in (r, S n)
      else (false, 1%nat)
  | _, _ => (true, 0%nat)
  end.

(** [bytes.Equal(a, b)]: the lengths are compared first. *)
Definition bytes_Equal (a b : bytes) : bool :=
  if bool_decide (length a = length b) then (equal_scan a b).1 else false.

(** The number of pairs of bytes that [bytes.Equal(a, b)] compares. *)
Definition bytes_Equal_steps (a b : bytes) : nat :=
  if bool_decide (length a = length b) then (equal_scan a b).2 else 0%nat.

(** [%v] of a [[]byte] in [fmt.Sprintf]: the bytes in decimal, separated by
    spaces, in square brackets. *)
Definition fmt_byte (b : byte) : string :=
  NilEmpty.string_of_uint (N.to_uint (Byte.to_N b)).

Definition fmt_bytes (bs : bytes) : string :=
  "[" ++ String.concat " " (map fmt_byte bs) ++ "]".

(** ** Messages *)

(** The value of the [Meta] field of a header: [nil], the close packet of
    the link, or a record of another layer. *)
Inductive meta (O : Type) : Type :=
  | MetaNil
  | closePacket
  | MetaOther (o : O).
Arguments MetaNil {O}.
Arguments closePacket {O}.
Arguments MetaOther {O} o.

(** Modelled from the spec: [proto.Header], which is not among the sources.
    The link reads its [Meta] field only; [fields] stands for the others. *)
Record Header (F O : Type) : Type := mkHeader {
  Meta : meta O;
  fields : F
}.
Arguments mkHeader {F O}.
Arguments Meta {F O}.
Arguments fields {F O}.

(** Modelled from the spec: [proto.Message], which is not among the sources:
    a header, a payload, and the flag that [Secure()] returns and
    [KnownSecure()] sets. *)
Record Message (F O : Type) : Type := mkMessage {
  Head : Header F O;
  Data : bytes;
  secure : bool
}.
Arguments mkMessage {F O}.
Arguments Head {F O}.
Arguments Data {F O}.
Arguments secure {F O}.

(** ** The transport *)

(** Modelled from the spec: the framed transport [stream.Stream], which is
    not among the sources.  [Send] enqueues one frame, [Flush] commits the
    frames enqueued so far, [Recv] yields the next inbound frame; a
    transport that has failed returns its error from every call, and a
    receive with no frame left fails with the end of the stream. *)
Record Sock : Type := mkSock {
  out : list bytes;
  committed : nat;
  inbox : list bytes;
  fault : option error
}.

Definition sock_Send (f : bytes) (s : Sock) : Sock * result unit :=
  match fault s with
  | Some e => (s, Err e)
  | None => ({| out := out s ++ [f]; committed := committed s;
                inbox := inbox s; fault := None |}, Ok ())
  end.

Definition sock_Flush (s : Sock) : Sock * result unit :=
  match fault s with
  | Some e => (s, Err e)
  | None => ({| out := out s; committed := length (out s);
                inbox := inbox s; fault := None |}, Ok ())
  end.

Definition sock_Recv (s : Sock) : Sock * result bytes :=
  match fault s with
  | Some e => (s, Err e)
  | None =>
      match inbox s with
      | [] => (s, Err "EOF")
      | f :: rest => ({| out := out s; committed := committed s;
                         inbox := rest; fault := None |}, Ok f)
      end
  end.

(** ** What the link takes from outside *)

(** The Go library ([crypto/cipher], [crypto/hmac], [encoding/gob]) and the
    packages [config] and [proto] of the repository, which are not among
    the sources. *)
Class Env : Type := {
  (** [config.SessionCipherBits] *)
  SessionCipherBits : Z;
  (** [cipher.Block], and [config.SessionCipher] that makes one of a key *)
  Block : Type;
  SessionCipher : bytes → result Block;
  BlockSize : Block → Z;
  (** the key stream of [cipher.NewCTR(block, iv)], by position *)
  ctr_key_stream : Block → bytes → nat → byte;
  (** [config.SessionHash().Size()] *)
  HashSize : Z;
  (** the HMAC over [config.SessionHash] of a message under a key *)
  hmac_digest : bytes → bytes → bytes;
  (** the fields of [proto.Header] other than [Meta], and their zero value *)
  HeaderFields : Type;
  zeroFields : HeaderFields;
  (** the [Meta] records of the other layers *)
  OtherMeta : Type;
  (** the states of a [gob.Encoder] and of a [gob.Decoder], which remember
      the types already transmitted *)
  Encoder : Type;
  Decoder : Type;
  NewEncoder : Encoder;
  NewDecoder : Decoder;
  (** [Encode]: the bytes written to the buffer of the encoder, and the
      error *)
  Encode : Encoder → Header HeaderFields OtherMeta → Encoder * bytes * option error;
  (** [Decode], from the content of the buffer of the decoder: what is left
      in the buffer, and the header or the error *)
  Decode : Decoder → bytes → Decoder * bytes * result (Header HeaderFields OtherMeta)
}.

Section link.
Context `{E : Env}.

#[local] Abbreviation Header := (Header HeaderFields OtherMeta).
#[local] Abbreviation Message := (Message HeaderFields OtherMeta).

(** [msg.Secure()] *)
Definition Secure (msg : Message) : bool := secure msg.

(** [msg.KnownSecure()] *)
Definition KnownSecure (msg : Message) : Message :=
  {| Head := Head msg; Data := Data msg; secure := true |}.

(** ** The half-duplex state *)

(** A [cipher.Stream] made by [cipher.NewCTR]: the block cipher, the IV and
    the number of bytes of key stream used so far. *)
Record CipherStream : Type := mkCipherStream {
  block : Block;
  iv : bytes;
  pos : nat
}.

Definition NewCTR (b : Block) (iv : bytes) : CipherStream :=
  {| block := b; iv := iv; pos := 0 |}.

(** [src] XORed with the key stream from position [p]. *)
Fixpoint xor_key_stream (b : Block) (iv : bytes) (p : nat) (src : bytes) : bytes :=
  match src with
  | [] => []
  | x :: src' =>
      byte_xor x (ctr_key_stream b iv p) :: xor_key_stream b iv (S p) src'
  end.

(** [c.XORKeyStream(dst, src)]: the state afterwards and the bytes written
    to [dst]. *)
Definition XORKeyStream (c : CipherStream) (src : bytes) : CipherStream * bytes :=
  ({| block := block c; iv := iv c; pos := pos c + length src |},
   xor_key_stream (block c) (iv c) (pos c) src).

(** A [hash.Hash] made by [hmac.New]: the key and what has been written
    since it was made. *)
Record Macer : Type := mkMacer {
  salt : bytes;
  written : bytes
}.

Definition hmac_New (salt : bytes) : Macer := {| salt := salt; written := [] |}.

(** [m.Write(p)] *)
Definition mac_Write (m : Macer) (p : bytes) : Macer :=
  {| salt := salt m; written := written m ++ p |}.

(** [m.Sum(nil)]: the digest of what has been written; the state is left
    as it is. *)
Definition mac_Sum (m : Macer) : bytes := hmac_digest (salt m) (written m).

(** ** The link *)

(** [type Link struct].  The channels [Send], [Recv], [sendQuit] and
    [recvQuit] are of the workers; see [sender]. *)
Record Link : Type := mkLink {
  socket : Sock;
  inCipher : CipherStream;
  outCipher : CipherStream;
  inMacer : Macer;
  outMacer : Macer;
  inBuffer : bytes;
  outBuffer : bytes;
  inCoder : Decoder;
  outCoder : Encoder;
  inHeadBuf : bytes;
  inMacBuf : bytes
}.

Definition set_socket (v : Sock) (l : Link) : Link :=
  {| socket := v; inCipher := inCipher l; outCipher := outCipher l
     ; inMacer := inMacer l; outMacer := outMacer l; inBuffer := inBuffer l; outBuffer := outBuffer l
     ; inCoder := inCoder l; outCoder := outCoder l; inHeadBuf := inHeadBuf l; inMacBuf := inMacBuf l |}.

Definition set_inCipher (v : CipherStream) (l : Link) : Link :=
  {| socket := socket l; inCipher := v; outCipher := outCipher l
     ; inMacer := inMacer l; outMacer := outMacer l; inBuffer := inBuffer l; outBuffer := outBuffer l
     ; inCoder := inCoder l; outCoder := outCoder l; inHeadBuf := inHeadBuf l; inMacBuf := inMacBuf l |}.

Definition set_outCipher (v : CipherStream) (l : Link) : Link :=
  {| socket := socket l; inCipher := inCipher l; outCipher := v
     ; inMacer := inMacer l; outMacer := outMacer l; inBuffer := inBuffer l; outBuffer := outBuffer l
     ; inCoder := inCoder l; outCoder := outCoder l; inHeadBuf := inHeadBuf l; inMacBuf := inMacBuf l |}.

Definition set_inMacer (v : Macer) (l : Link) : Link :=
  {| socket := socket l; inCipher := inCipher l; outCipher := outCipher l
     ; inMacer := v; outMacer := outMacer l; inBuffer := inBuffer l; outBuffer := outBuffer l
     ; inCoder := inCoder l; outCoder := outCoder l; inHeadBuf := inHeadBuf l; inMacBuf := inMacBuf l |}.

Definition set_outMacer (v : Macer) (l : Link) : Link :=
  {| socket := socket l; inCipher := inCipher l; outCipher := outCipher l
     ; inMacer := inMacer l; outMacer := v; inBuffer := inBuffer l; outBuffer := outBuffer l
     ; inCoder := inCoder l; outCoder := outCoder l; inHeadBuf := inHeadBuf l; inMacBuf := inMacBuf l |}.

Definition set_inBuffer (v : bytes) (l : Link) : Link :=
  {| socket := socket l; inCipher := inCipher l; outCipher := outCipher l
     ; inMacer := inMacer l; outMacer := outMacer l; inBuffer := v; outBuffer := outBuffer l
     ; inCoder := inCoder l; outCoder := outCoder l; inHeadBuf := inHeadBuf l; inMacBuf := inMacBuf l |}.

Definition set_outBuffer (v : bytes) (l : Link) : Link :=
  {| socket := socket l; inCipher := inCipher l; outCipher := outCipher l
     ; inMacer := inMacer l; outMacer := outMacer l; inBuffer := inBuffer l; outBuffer := v
     ; inCoder := inCoder l; outCoder := outCoder l; inHeadBuf := inHeadBuf l; inMacBuf := inMacBuf l |}.

Definition set_inCoder (v : Decoder) (l : Link) : Link :=
  {| socket := socket l; inCipher := inCipher l; outCipher := outCipher l
     ; inMacer := inMacer l; outMacer := outMacer l; inBuffer := inBuffer l; outBuffer := outBuffer l
     ; inCoder := v; outCoder := outCoder l; inHeadBuf := inHeadBuf l; inMacBuf := inMacBuf l |}.

Definition set_outCoder (v : Encoder) (l : Link) : Link :=
  {| socket := socket l; inCipher := inCipher l; outCipher := outCipher l
     ; inMacer := inMacer l; outMacer := outMacer l; inBuffer := inBuffer l; outBuffer := outBuffer l
     ; inCoder := inCoder l; outCoder := v; inHeadBuf := inHeadBuf l; inMacBuf := inMacBuf l |}.

Definition set_inHeadBuf (v : bytes) (l : Link) : Link :=
  {| socket := socket l; inCipher := inCipher l; outCipher := outCipher l
     ; inMacer := inMacer l; outMacer := outMacer l; inBuffer := inBuffer l; outBuffer := outBuffer l
     ; inCoder := inCoder l; outCoder := outCoder l; inHeadBuf := v; inMacBuf := inMacBuf l |}.

Definition set_inMacBuf (v : bytes) (l : Link) : Link :=
  {| socket := socket l; inCipher := inCipher l; outCipher := outCipher l
     ; inMacer := inMacer l; outMacer := outMacer l; inBuffer := inBuffer l; outBuffer := outBuffer l
     ; inCoder := inCoder l; outCoder := outCoder l; inHeadBuf := inHeadBuf l; inMacBuf := v |}.

(** [io.ReadFull(hkdf, buf)] for a fresh [buf] of [n] bytes, on the bytes
    that the reader has yet to yield: the buffer and the rest of the
    stream.  [None] stands for the panic of the caller on a short read (and
    for the one of [make] on a negative length). *)
Definition ReadFull (hkdf : bytes) (n : Z) : option (bytes * bytes) :=
  if bool_decide (0 ≤ n ≤ Z.of_nat (length hkdf))
  then Some (take (Z.to_nat n) hkdf, drop (Z.to_nat n) hkdf)
  else None.

(** [func makeHalfDuplex(hkdf io.Reader) (cipher.Stream, hash.Hash)];
    [None] is a panic. *)
Definition makeHalfDuplex (hkdf : bytes) : option (CipherStream * Macer * bytes) :=
  '(key, hkdf1) ← ReadFull hkdf (Z.quot SessionCipherBits 8);
  match SessionCipher key with
  | Err _ => None
  | Ok blk =>
      '(iv, hkdf2) ← ReadFull hkdf1 (BlockSize blk);
      let stream := NewCTR blk iv in
      '(salt, hkdf3) ← ReadFull hkdf2 HashSize;
      let mac := hmac_New salt in
      Some (stream, mac, hkdf3)
  end.

(** [func New(conn *stream.Stream, hkdf io.Reader, server bool) *Link]: the
    link, and what is left of the key-derivation stream. *)
Definition New (conn : Sock) (hkdf : bytes) (server : bool) : option (Link * bytes) :=
  '(sc, sm, hkdf1) ← makeHalfDuplex hkdf;
  '(cc, cm, hkdf2) ← makeHalfDuplex hkdf1;
  let '(ic, oc, im, om) :=
    if server then (cc, sc, cm, sm) else (sc, cc, sm, cm) in
  Some ({| socket := conn;
           inCipher := ic; outCipher := oc; inMacer := im; outMacer := om;
           inBuffer := []; outBuffer := [];
           inCoder := NewDecoder; outCoder := NewEncoder;
           inHeadBuf := []; inMacBuf := [] |}, hkdf2).

(** ** Methods: the state of the link is threaded, and kept on an error *)

Definition M (R : Type) : Type := Link → Link * result R.

#[export] Instance M_ret : MRet M := λ R r l, (l, Ok r).

#[export] Instance M_bind : MBind M := λ R1 R2 f m l,
  match m l with
  | (l', Ok r) => f r l'
  | (l', Err e) => (l', Err e)
  end.

Definition throw {R} (e : error) : M R := λ l, (l, Err e).

Definition gets {R} (f : Link → R) : M R := λ l, (l, Ok (f l)).

Definition modify (f : Link → Link) : M unit := λ l, (f l, Ok ()).

(** [defer f]: [f] runs when the rest of the body returns, whatever it
    returns. *)
Definition defer {R} (f : Link → Link) (body : M R) : M R := λ l,
  let '(l', r) := body l in (f l', r).

(** A call on the transport of the link. *)
Definition on_socket {R} (f : Sock → Sock * result R) : M R := λ l,
  let '(s', r) := f (socket l) in (set_socket s' l, r).

(** [l.outCoder.Encode(head)], the encoder writing to [l.outBuffer]. *)
Definition outCoder_Encode (head : Header) : M unit := λ l,
  let '(enc, bs, err) := Encode (outCoder l) head in
  let l' := set_outBuffer (outBuffer l ++ bs) (set_outCoder enc l) in
  match err with
  | Some e => (l', Err e)
  | None => (l', Ok ())
  end.

(** [l.inCoder.Decode(&head)], the decoder reading from [l.inBuffer]. *)
Definition inCoder_Decode : M Header := λ l,
  let '(dec, rest, r) := Decode (inCoder l) (inBuffer l) in
  (set_inBuffer rest (set_inCoder dec l), r).

(** [l.outCipher.XORKeyStream(l.outBuffer.Bytes(), l.outBuffer.Bytes())] *)
Definition outCipher_XORKeyStream : M unit := λ l,
  let '(c, dst) := XORKeyStream (outCipher l) (outBuffer l) in
  (set_outBuffer dst (set_outCipher c l), Ok ()).

(** [l.inCipher.XORKeyStream(l.inHeadBuf, l.inHeadBuf)] *)
Definition inCipher_XORKeyStream : M unit := λ l,
  let '(c, dst) := XORKeyStream (inCipher l) (inHeadBuf l) in
  (set_inHeadBuf dst (set_inCipher c l), Ok ()).

Definition outMacer_Write (p : bytes) : M unit :=
  modify (λ l, set_outMacer (mac_Write (outMacer l) p) l).

Definition inMacer_Write (p : bytes) : M unit :=
  modify (λ l, set_inMacer (mac_Write (inMacer l) p) l).

(** [errors.New(fmt.Sprintf("mac mismatch: have %v, want %v.", have, want))] *)
Definition mac_mismatch (have want : bytes) : error :=
  "mac mismatch: have " ++ fmt_bytes have ++ ", want " ++ fmt_bytes want ++ ".".

(** [func (l *Link) SendDirect(msg *proto.Message) error] *)
Definition SendDirect (msg : Message) : M unit :=
  (* the line written to the log is not part of the state *)
  if negb (Secure msg) && bool_decide (0 < length (Data msg))%nat then
    throw "unsecured data, send denied"
  else
    outCoder_Encode (Head msg);;
    outCipher_XORKeyStream;;
    defer (set_outBuffer []) (
      buf ← gets outBuffer;
      outMacer_Write buf;;
      outMacer_Write (Data msg);;
      buf ← gets outBuffer;
      on_socket (sock_Send buf);;
      on_socket (sock_Send (Data msg));;
      tag ← gets (λ l, mac_Sum (outMacer l));
      on_socket (sock_Send tag);;
      on_socket sock_Flush).

(** [func (l *Link) RecvDirect()], which returns a message and an error *)
Definition RecvDirect : M Message :=
  head ← on_socket sock_Recv;
  modify (set_inHeadBuf head);;
  data ← on_socket sock_Recv;
  tag ← on_socket sock_Recv;
  modify (set_inMacBuf tag);;
  buf ← gets inHeadBuf;
  inMacer_Write buf;;
  inMacer_Write data;;
  tag ← gets inMacBuf;
  sum ← gets (λ l, mac_Sum (inMacer l));
  if negb (bytes_Equal tag sum) then
    throw (mac_mismatch sum tag)
  else
    inCipher_XORKeyStream;;
    buf ← gets inHeadBuf;
    modify (λ l, set_inBuffer (inBuffer l ++ buf) l);;
    head ← inCoder_Decode;
    mret (KnownSecure {| Head := head; Data := data; secure := false |}).

(** ** The sender worker *)

(** [&proto.Message{Head: proto.Header{Meta: &closePacket{}}}] *)
Definition closeMessage : Message :=
  {| Head := {| Meta := closePacket; fields := zeroFields |};
     Data := []; secure := false |}.

(** The first loop of [sender], on the messages that its [select] takes
    from [l.Send] before it takes the request on [l.sendQuit]: it ends at
    the first error. *)
Fixpoint serve (taken : list Message) : M unit :=
  match taken with
  | [] => mret ()
  | msg :: taken' => SendDirect msg;; serve taken'
  end.

(** The flush loop of [sender], on the messages that its receives from
    [l.Send] find, the ones pending at the request first, until the channel
    is found empty: it ends at the first error. *)
Fixpoint flush (pending : list Message) : M unit :=
  match pending with
  | [] => mret ()
  | msg :: pending' => SendDirect msg;; flush pending'
  end.

(** [func (l *Link) sender()]: the state of the link at the end and the
    error sent on the reply channel of the request.  After an error in the
    first loop, the worker waits for the request and reports the error. *)
Definition sender (taken pending : list Message) : M unit := λ l,
  match serve taken l with
  | (l1, Err e) => (l1, Err e)
  | (l1, Ok _) => (flush pending;; SendDirect closeMessage) l1
  end.

(** ** Runs of the direct calls *)

Fixpoint sendAll (msgs : list Message) : M unit :=
  match msgs with
  | [] => mret ()
  | msg :: msgs' => SendDirect msg;; sendAll msgs'
  end.

Fixpoint recvAll (n : nat) : M (list Message) :=
  match n with
  | O => mret []
  | S n' => msg ← RecvDirect; msgs ← recvAll n'; mret (msg :: msgs)
  end.

(** ** The frames of a message *)

(** The header frame of a message sent from [l], the encoder having written
    [bs]: the content of the scratch buffer under the key stream. *)
Definition header_frame (l : Link) (bs : bytes) : bytes :=
  (XORKeyStream (outCipher l) (outBuffer l ++ bs)).2.

(** The MAC state after the header frame [c] and the payload [d]. *)
Definition mac_after (m : Macer) (c d : bytes) : Macer :=
  mac_Write (mac_Write m c) d.

(** The link after [SendDirect] has sent [msg] from [l] without an error,
    the encoder having written [bs] and being left as [enc]. *)
Definition sent (l : Link) (msg : Message) (enc : Encoder) (bs : bytes) : Link :=
  let c := header_frame l bs in
  let mac := mac_after (outMacer l) c (Data msg) in
  {| socket := {| out := out (socket l) ++ [c; Data msg; mac_Sum mac];
                  committed := length (out (socket l) ++ [c; Data msg; mac_Sum mac]);
                  inbox := inbox (socket l); fault := None |};
     inCipher := inCipher l;
     outCipher := (XORKeyStream (outCipher l) (outBuffer l ++ bs)).1;
     inMacer := inMacer l; outMacer := mac;
     inBuffer := inBuffer l; outBuffer := [];
     inCoder := inCoder l; outCoder := enc;
     inHeadBuf := inHeadBuf l; inMacBuf := inMacBuf l |}.

(** The link after [RecvDirect] has taken the frames [c], [d] and [t] and
    has compared [t] with the digest. *)
Definition verified (l : Link) (c d t : bytes) (rest : list bytes) : Link :=
  {| socket := {| out := out (socket l); committed := committed (socket l);
                  inbox := rest; fault := None |};
     inCipher := inCipher l; outCipher := outCipher l;
     inMacer := mac_after (inMacer l) c d; outMacer := outMacer l;
     inBuffer := inBuffer l; outBuffer := outBuffer l;
     inCoder := inCoder l; outCoder := outCoder l;
     inHeadBuf := c; inMacBuf := t |}.

(** The link after [RecvDirect] has decrypted the header frame [c] of a
    verified message and has handed it to the decoder, which leaves [rem]
    in its buffer and ends as [dec]. *)
Definition decoded (l : Link) (c d t : bytes) (rest : list bytes)
    (dec : Decoder) (rem : bytes) : Link :=
  let v := verified l c d t rest in
  {| socket := socket v;
     inCipher := (XORKeyStream (inCipher l) c).1; outCipher := outCipher l;
     inMacer := inMacer v; outMacer := outMacer l;
     inBuffer := rem; outBuffer := outBuffer l;
     inCoder := dec; outCoder := outCoder l;
     inHeadBuf := (XORKeyStream (inCipher l) c).2; inMacBuf := t |}.

(** The tags of a sequence of frames chain: each third frame is the digest
    of what the MAC had been given, [w], followed by the header frames and
    the payloads up to it. *)
Fixpoint tags_chain (key w : bytes) (frames : list bytes) : Prop :=
  match frames with
  | [] => True
  | c :: d :: t :: frames' =>
      t = hmac_digest key (w ++ c ++ d) ∧ tags_chain key (w ++ c ++ d) frames'
  | _ => False
  end.

(** What the MAC is given for a sequence of frames: the header frames and
    the payloads, not the tags. *)
Fixpoint mac_input (frames : list bytes) : bytes :=
  match frames with
  | c :: d :: _ :: frames' => c ++ d ++ mac_input frames'
  | _ => []
  end.

(** The frames that [a'] has sent since [a]. *)
Definition frames_since (a a' : Link) : list bytes :=
  drop (length (out (socket a))) (out (socket a')).

(** A message that [SendDirect] accepts: no payload, or a secure one. *)
Definition sendable (msg : Message) : Prop :=
  Data msg = [] ∨ Secure msg = true.

(** The number of pairs of bytes compared by the [bytes.Equal] of
    [RecvDirect], with three frames at hand. *)
Definition mac_compare_steps (l : Link) : option nat :=
  match inbox (socket l) with
  | c :: d :: t :: _ =>
      Some (bytes_Equal_steps t (mac_Sum (mac_after (inMacer l) c d)))
  | _ => None
  end.

End link.

(** The contract of the header codec: an encoder and a decoder made
    together stay in step, the decoder giving back each header from the
    bytes that the encoder wrote for it, and leaving none. *)
Class PairedCodec `{E : Env} : Type := {
  paired : Encoder → Decoder → Prop;
  paired_New : paired NewEncoder NewDecoder;
  paired_Encode_Decode enc dec head enc' bs :
    paired enc dec → Encode enc head = (enc', bs, None) →
    ∃ dec', Decode dec bs = (dec', [], Ok head) ∧ paired enc' dec'
}.

Section synced.
Context `{C : PairedCodec}.

(** The outbound half of [a] and the inbound half of [b] are in step: the
    same cipher stream and MAC state, coders in step, nothing left in the
    two buffers. *)
Definition synced (a b : Link) : Prop :=
  outCipher a = inCipher b ∧ outMacer a = inMacer b ∧
  paired (outCoder a) (inCoder b) ∧
  outBuffer a = [] ∧ inBuffer b = [].

End synced.

(** ** The receiver worker *)

Section receiver.
Context `{E : Env}.

#[local] Abbreviation Message := (Message HeaderFields OtherMeta).

(** [_, ok := msg.Head.Meta.( *closePacket)] *)
Definition is_closePacket (m : meta OtherMeta) : bool :=
  match m with
  | closePacket => true
  | _ => false
  end.

(** What the worker has done when it ends: the state of the link, the
    messages sent on [l.Recv] before the channel was closed, and the error
    sent on the reply channel of the shutdown request. *)
Definition delivered (msg : Message)
    (r : option (Link * list Message * result unit))
    : option (Link * list Message * result unit) :=
  '(l, msgs, e) ← r; Some (l, msg :: msgs, e).

(** The loop of [receiver].  [accepts] is the number of messages that the
    reader of [l.Recv] takes before it stops reading, so that the request on
    [l.recvQuit] is taken in the place of the next send; [None] when it takes
    them all.  A message received when the request is taken is not sent on.
    [fuel] bounds the number of iterations; [None] is for the fuel that has
    run out. *)
Fixpoint receiver_loop (fuel : nat) (accepts : option nat) (l : Link)
    : option (Link * list Message * result unit) :=
  match fuel with
  | O => None
  | S fuel' =>
      match RecvDirect l with
      | (l1, Err e) => Some (l1, [], Err e)
      | (l1, Ok msg) =>
          if is_closePacket (Meta (Head msg)) then Some (l1, [], Ok ())
          else
            match accepts with
            | Some O => Some (l1, [], Ok ())
            | Some (S k) => delivered msg (receiver_loop fuel' (Some k) l1)
            | None => delivered msg (receiver_loop fuel' None l1)
            end
      end
  end.

(** [func (l *Link) receiver()].  Every iteration but the last takes three
    frames from the transport, so that the loop ends within the number of
    frames at hand, and one more iteration. *)
Definition receiver (accepts : option nat) (l : Link)
    : option (Link * list Message * result unit) :=
  receiver_loop (S (length (inbox (socket l)))) accepts l.

End receiver.

End Link.

(** * A small instance of the environment, for concrete runs *)

Module Toy.
Import Link.

#[local] Abbreviation bytes := (list byte).

(** A codec with a state, as gob has one: the first header encoded is
    preceded by a type descriptor, which the decoder expects once. *)
Definition encode_meta (m : meta byte) : bytes :=
  match m with
  | MetaNil => [x00; x00]
  | closePacket => [x01; x00]
  | MetaOther o => [x02; o]
  end.

Definition toy_Encode (n : nat) (h : Header byte byte) : nat * bytes * option error :=
  (S n,
   (match n with O => [xff] | S _ => [] end) ++ encode_meta (Meta h) ++ [fields h],
   None).

Definition decode_body (buf : bytes) : bytes * result (Header byte byte) :=
  match buf with
  | t :: o :: f :: rest =>
      match t with
      | x00 => (rest, Ok {| Meta := MetaNil; fields := f |})
      | x01 => (rest, Ok {| Meta := closePacket; fields := f |})
      | x02 => (rest, Ok {| Meta := MetaOther o; fields := f |})
      | _ => (rest, Err "gob: unknown type id"%string)
      end
  | _ => ([], Err "unexpected EOF"%string)
  end.

Definition toy_Decode (n : nat) (buf : bytes)
    : nat * bytes * result (Header byte byte) :=
  match n, buf with
  | O, t :: buf' =>
      if Byte.eqb t xff
      then let '(rest, r) := decode_body buf' in (S n, rest, r)
      else (n, buf', Err "gob: type descriptor expected"%string)
  | O, [] => (n, [], Err "EOF"%string)
  | S _, _ => let '(rest, r) := decode_body buf in (S n, rest, r)
  end.

(** A key stream that repeats the key and the IV, and a two-byte checksum
    in the place of the HMAC. *)
Definition toy_key_stream (key iv : bytes) (p : nat) : byte :=
  default x5a ((key ++ iv) !! (p mod 4)%nat).

Definition toy_digest (key msg : bytes) : bytes :=
  [foldr byte_xor x00 (key ++ msg); foldr byte_xor xff msg].

#[export] Instance toy : Env := {|
  SessionCipherBits := 16;
  Block := bytes;
  SessionCipher := λ key, Ok key;
  BlockSize := λ _, 2;
  ctr_key_stream := toy_key_stream;
  HashSize := 2;
  hmac_digest := toy_digest;
  HeaderFields := byte;
  zeroFields := x00;
  OtherMeta := byte;
  Encoder := nat;
  Decoder := nat;
  NewEncoder := O;
  NewDecoder := O;
  Encode := toy_Encode;
  Decode := toy_Decode
|}.

(** The bytes of a key-derivation stream, and an idle transport. *)
Definition hkdf0 : bytes :=
  [x01; x02; x03; x04; x05; x06; x07; x08; x09; x0a; x0b; x0c; x0d].

Definition conn0 : Sock :=
  {| out := []; committed := 0; inbox := []; fault := None |}.

(** The transport [s] once the frames [fs] have arrived. *)
Definition arrive (fs : list bytes) (s : Sock) : Sock :=
  {| out := out s; committed := committed s; inbox := inbox s ++ fs;
     fault := fault s |}.

(** The two links that [New] makes of [hkdf0], as server and as client. *)
Definition server0 : Link :=
  {| socket := conn0;
     inCipher := NewCTR [x07; x08] [x09; x0a];
     outCipher := NewCTR [x01; x02] [x03; x04];
     inMacer := hmac_New [x0b; x0c];
     outMacer := hmac_New [x05; x06];
     inBuffer := []; outBuffer := [];
     inCoder := NewDecoder; outCoder := NewEncoder;
     inHeadBuf := []; inMacBuf := [] |}.

Definition client0 : Link :=
  {| socket := conn0;
     inCipher := NewCTR [x01; x02] [x03; x04];
     outCipher := NewCTR [x07; x08] [x09; x0a];
     inMacer := hmac_New [x05; x06];
     outMacer := hmac_New [x0b; x0c];
     inBuffer := []; outBuffer := [];
     inCoder := NewDecoder; outCoder := NewEncoder;
     inHeadBuf := []; inMacBuf := [] |}.

(** The link [l] once the frames [fs] have arrived on its transport. *)
Definition with_frames (fs : list bytes) (l : Link) : Link :=
  set_socket (arrive fs (socket l)) l.

(** The client with a header frame, a payload and the tag [t] at hand; the
    digest of the two frames is [[x02; xfe]]. *)
Definition tagged (t : bytes) : Link :=
  with_frames [[x00]; [x01]; t] client0.

Definition msg1 : Message (HeaderFields (Env:=toy)) (OtherMeta (Env:=toy)) :=
  {| Head := {| Meta := MetaOther x07; fields := x11 |};
     Data := [x61; x62]; secure := true |}.

Definition msg2 : Message (HeaderFields (Env:=toy)) (OtherMeta (Env:=toy)) :=
  {| Head := {| Meta := MetaNil; fields := x22 |}; Data := []; secure := false |}.

Definition unsecured : Message (HeaderFields (Env:=toy)) (OtherMeta (Env:=toy)) :=
  {| Head := {| Meta := MetaNil; fields := x00 |};
     Data := [x78; x78]; secure := false |}.

(** The server once it has sent two messages and the close message, and
    the client with their frames at hand. *)
Definition sent3 : Link := (sendAll [msg1; msg2; closeMessage] server0).1.

Definition client3 : Link := with_frames (frames_since server0 sent3) client0.

(** The environment [toy] with an encoder that refuses the [Meta] record
    [xff], as gob refuses a type that has not been registered, once it has
    written the type descriptor. *)
Definition strict_Encode (n : nat) (h : Header byte byte) : nat * bytes * option error :=
  match Meta h with
  | MetaOther xff =>
      (n, match n with O => [xff] | S _ => [] end,
       Some "gob: type not registered for interface"%string)
  | _ => toy_Encode n h
  end.

Definition toy_strict : Env := {|
  SessionCipherBits := 16;
  Block := bytes;
  SessionCipher := λ key, Ok key;
  BlockSize := λ _, 2;
  ctr_key_stream := toy_key_stream;
  HashSize := 2;
  hmac_digest := toy_digest;
  HeaderFields := byte;
  zeroFields := x00;
  OtherMeta := byte;
  Encoder := nat;
  Decoder := nat;
  NewEncoder := O;
  NewDecoder := O;
  Encode := strict_Encode;
  Decode := toy_Decode
|}.

(** The server of the strict environment, and two of its messages. *)
Definition strict0 : @Link toy_strict :=
  {| socket := conn0;
     inCipher := @NewCTR toy_strict [x07; x08] [x09; x0a];
     outCipher := @NewCTR toy_strict [x01; x02] [x03; x04];
     inMacer := hmac_New [x0b; x0c];
     outMacer := hmac_New [x05; x06];
     inBuffer := []; outBuffer := [];
     inCoder := O; outCoder := O;
     inHeadBuf := []; inMacBuf := [] |}.

Definition unregistered
    : Message (HeaderFields (Env:=toy_strict)) (OtherMeta (Env:=toy_strict)) :=
  {| Head := {| Meta := MetaOther xff; fields := x00 |};
     Data := []; secure := false |}.

Definition registered
    : Message (HeaderFields (Env:=toy_strict)) (OtherMeta (Env:=toy_strict)) :=
  {| Head := {| Meta := MetaOther x07; fields := x11 |};
     Data := [x61]; secure := true |}.

(** The server on a transport that has failed. *)
Definition broken0 : Link :=
  set_socket {| out := []; committed := 0; inbox := [];
                fault := Some "broken pipe"%string |} server0.

(** The server once its sender worker has sent [msg1], then [msg2] and the
    close message, and the client with the frames at hand. *)
Definition closed0 : Link := (sender [msg1] [msg2] server0).1.

Definition closing0 : Link := with_frames (frames_since server0 closed0) client0.

(** The server once it has sent [msg1] and [msg2], and the client with the
    frames at hand, followed by three frames with a tag that is not the
    digest and by one more frame. *)
Definition sent2 : Link := (sendAll [msg1; msg2] server0).1.

Definition tampered0 : Link :=
  with_frames (frames_since server0 sent2
                 ++ [[x00]; [x01]; [x00; x00]; [x09]]) client0.

Definition client2 : Link := with_frames (frames_since server0 sent2) client0.

End Toy.

Module QueueFacts.
Import Queue.

(** ** Lemmas on indexing *)

Section index_lemmas.
Context {T : Type}.
Implicit Types (l : list T) (i : Z).

Lemma zlookup_Some l i x :
  zlookup l i = Some x → 0 ≤ i < Z.of_nat (length l) ∧ l !! Z.to_nat i = Some x.
Proof.
  unfold zlookup. case_bool_decide; [|done]. intros Hl. split; [|done].
  apply lookup_lt_Some in Hl. lia.
Qed.

Lemma zlookup_lt l i :
  0 ≤ i < Z.of_nat (length l) → ∃ x, zlookup l i = Some x.
Proof.
  intros Hi. unfold zlookup. rewrite bool_decide_eq_true_2 by lia.
  apply lookup_lt_is_Some. lia.
Qed.

Lemma zlookup_elem_of l i x : zlookup l i = Some x → x ∈ l.
Proof. intros [_ Hl]%zlookup_Some. by eapply list_elem_of_lookup_2. Qed.

Lemma zupdate_lt l i x :
  0 ≤ i < Z.of_nat (length l) → zupdate l i x = Some (<[Z.to_nat i := x]> l).
Proof. intros Hi. unfold zupdate. by rewrite bool_decide_eq_true_2. Qed.

Lemma zupdate_Some l i x l' :
  zupdate l i x = Some l' →
  0 ≤ i < Z.of_nat (length l) ∧ l' = <[Z.to_nat i := x]> l.
Proof. unfold zupdate. case_bool_decide; [|done]. intros [= <-]. done. Qed.

Lemma zlookup_zupdate l i j x l' :
  zupdate l i x = Some l' →
  zlookup l' j = if bool_decide (i = j) then Some x else zlookup l j.
Proof.
  intros [Hi ->]%zupdate_Some. unfold zlookup.
  destruct (decide (i = j)) as [->|Hij].
  - rewrite !bool_decide_eq_true_2 by (done || lia).
    apply list_lookup_insert_eq. lia.
  - rewrite (bool_decide_eq_false_2 (i = j)) by done.
    case_bool_decide; [|done]. apply list_lookup_insert_ne. lia.
Qed.

(** The slice built by [Push] when it inserts a block at position [t]. *)
Lemma zlookup_insert_at l (t : Z) (r : T) i :
  0 ≤ t ≤ Z.of_nat (length l) →
  zlookup (take (Z.to_nat t) l ++ r :: drop (Z.to_nat t) l) i =
    if bool_decide (i < t) then zlookup l i
    else if bool_decide (i = t) then Some r
    else zlookup l (i - 1).
Proof.
  intros Ht. unfold zlookup.
  assert (Hlen : length (take (Z.to_nat t) l) = Z.to_nat t)
    by (rewrite length_take; lia).
  repeat case_bool_decide; try lia; try done.
  - rewrite lookup_app_l by lia. apply lookup_take_lt. lia.
  - subst i. rewrite lookup_app_r by lia. rewrite Hlen, Nat.sub_diag. done.
  - rewrite lookup_app_r by lia. rewrite Hlen.
    replace (Z.to_nat i - Z.to_nat t)%nat with (S (Z.to_nat (i - 1 - t))) by lia.
    simpl. rewrite lookup_drop. f_equal. lia.
Qed.

Lemma length_insert_at l (t : Z) (r : T) :
  0 ≤ t ≤ Z.of_nat (length l) →
  Z.of_nat (length (take (Z.to_nat t) l ++ r :: drop (Z.to_nat t) l))
    = Z.of_nat (length l) + 1.
Proof.
  intros Ht. rewrite length_app, length_take. simpl. rewrite length_drop. lia.
Qed.

End index_lemmas.

Section queue_facts.
Context {A : Type}.
#[local] Abbreviation iface := (option A).
#[local] Abbreviation block := (list iface).
#[local] Abbreviation Heap := (list block).
Implicit Types (h : Heap) (q : Queue) (s : @State A) (x v : iface).
Implicit Types (r : nat) (blk : block).

Lemma blockSize_pos : 0 < blockSize.
Proof. done. Qed.

Lemma new_block_length : Z.of_nat (length (@new_block A)) = blockSize.
Proof. unfold new_block. rewrite length_replicate. unfold blockSize. lia. Qed.

(** ** The heap: stores keep the blocks allocated, allocation is fresh *)

Lemma allocated_lt h r : allocated h r → (r < length h)%nat.
Proof. intros (blk & Hb & _). by eapply lookup_lt_Some. Qed.

Lemma store_Some h r off x :
  allocated h r → 0 ≤ off < blockSize →
  ∃ blk, h !! r = Some blk ∧
         store h r off x = Some (<[r := <[Z.to_nat off := x]> blk]> h).
Proof.
  intros (blk & Hb & Hlen) Hoff. exists blk. split; [done|].
  unfold store. rewrite Hb. simpl. rewrite zupdate_lt by lia. done.
Qed.

Lemma store_inv h r off x h' :
  store h r off x = Some h' →
  ∃ blk, h !! r = Some blk ∧ 0 ≤ off < Z.of_nat (length blk) ∧
         h' = <[r := <[Z.to_nat off := x]> blk]> h.
Proof.
  unfold store. destruct (h !! r) as [blk|] eqn:Hb; [|done]. simpl.
  destruct (zupdate blk off x) as [blk'|] eqn:Hu; [|done]. simpl.
  intros [= <-]. apply zupdate_Some in Hu as [? ->]. eauto.
Qed.

Lemma store_length h r off x h' :
  store h r off x = Some h' → length h' = length h.
Proof. intros (blk & _ & _ & ->)%store_inv. apply length_insert. Qed.

Lemma store_allocated h r off x h' r' :
  store h r off x = Some h' → allocated h r' → allocated h' r'.
Proof.
  intros (blk & Hb & Hoff & ->)%store_inv (blk' & Hb' & Hlen).
  destruct (decide (r = r')) as [->|Hne].
  - exists (<[Z.to_nat off := x]> blk). split.
    + apply list_lookup_insert_eq. by eapply lookup_lt_Some.
    + rewrite length_insert. congruence.
  - exists blk'. split; [|done]. by rewrite list_lookup_insert_ne.
Qed.

Lemma load_store h r off x h' r' off' :
  store h r off x = Some h' →
  load h' r' off' =
    if bool_decide (r = r' ∧ off = off') then Some x else load h r' off'.
Proof.
  intros (blk & Hb & Hoff & ->)%store_inv. unfold load.
  destruct (decide (r = r')) as [->|Hne].
  - rewrite list_lookup_insert_eq by (by eapply lookup_lt_Some).
    rewrite Hb. simpl.
    rewrite (zlookup_zupdate blk off off' x) by (by apply zupdate_lt).
    destruct (decide (off = off')) as [->|Hne].
    + by rewrite !bool_decide_eq_true_2.
    + rewrite !bool_decide_eq_false_2; [done|tauto|done].
  - rewrite list_lookup_insert_ne by done.
    rewrite bool_decide_eq_false_2; [done|tauto].
Qed.

Lemma load_allocated h r off :
  allocated h r → 0 ≤ off < blockSize → ∃ v, load h r off = Some v.
Proof.
  intros (blk & Hb & Hlen) Hoff. unfold load. rewrite Hb. simpl.
  apply zlookup_lt. lia.
Qed.

Lemma alloc_allocated h r' :
  allocated h r' → allocated (h ++ [new_block]) r'.
Proof.
  intros (blk & Hb & Hlen). exists blk. split; [|done].
  rewrite lookup_app_l; [done|]. by eapply lookup_lt_Some.
Qed.

Lemma alloc_fresh h : allocated (h ++ [new_block]) (length h).
Proof.
  exists new_block. split; [|apply new_block_length].
  rewrite lookup_app_r by lia. by rewrite Nat.sub_diag.
Qed.

Lemma load_alloc h r off :
  (r < length h)%nat → load (h ++ [new_block]) r off = load h r off.
Proof. intros Hr. unfold load. by rewrite lookup_app_l. Qed.

(** ** The operations keep the index invariant and never panic *)

Lemma New_wf h : wf (New h).
Proof.
  unfold New, alloc, wf. simpl. unfold blockSize, zlookup. simpl.
  repeat split; try lia.
  intros r ->%list_elem_of_singleton. apply alloc_fresh.
Qed.

Lemma rem_succ_bounds (i n : Z) :
  0 ≤ i < n →
  Z.rem (i + 1) n = (if bool_decide (i + 1 = n) then 0 else i + 1).
Proof.
  intros Hi. rewrite Z.rem_mod_nonneg by lia. case_bool_decide.
  - replace (i + 1) with n by lia. apply Z_mod_same_full.
  - apply Z.mod_small. lia.
Qed.

Lemma Push_wf x s : wf s → ∃ s', Push x s = Some s' ∧ wf s'.
Proof.
  destruct s as [h q]. intros (Hho & Hto & Hhi & Hti & Hhd & Htl & Hal).
  assert (Htal : allocated h (tail q)) by (apply Hal; by eapply zlookup_elem_of).
  destruct (store_Some h (tail q) (tailOff q) x Htal Hto) as (blk & Hblk & Hst).
  assert (Hal1 : ∀ r h1, store h (tail q) (tailOff q) x = Some h1 →
                 r ∈ blocks q → allocated h1 r)
    by (intros; eapply store_allocated; eauto).
  unfold Push. rewrite Hst. simpl.
  set (h1 := <[tail q := _]> h) in *.
  case_bool_decide as Hfull.
  2: { eexists; split; [done|]. simpl. repeat split; try lia; eauto. }
  rewrite bool_decide_eq_false_2 by lia.
  rewrite (rem_succ_bounds _ _ Hti).
  set (ti := if bool_decide (tailIdx q + 1 = _) then 0 else tailIdx q + 1).
  assert (Hti' : 0 ≤ ti < Z.of_nat (length (blocks q)))
    by (subst ti; case_bool_decide; lia).
  case_bool_decide as Hcoll.
  - rewrite bool_decide_eq_true_2 by lia. unfold alloc.
    rewrite !zlookup_insert_at by lia.
    rewrite (bool_decide_eq_false_2 (headIdx q + 1 < ti)) by lia.
    rewrite (bool_decide_eq_false_2 (headIdx q + 1 = ti)) by lia.
    rewrite (bool_decide_eq_false_2 (ti < ti)) by lia.
    rewrite (bool_decide_eq_true_2 (ti = ti)) by lia.
    replace (headIdx q + 1 - 1) with (headIdx q) by lia.
    rewrite Hhd. simpl. eexists; split; [done|]. simpl.
    rewrite length_insert_at by lia.
    rewrite !zlookup_insert_at by lia.
    rewrite (bool_decide_eq_false_2 (headIdx q + 1 < ti)) by lia.
    rewrite (bool_decide_eq_false_2 (headIdx q + 1 = ti)) by lia.
    rewrite (bool_decide_eq_false_2 (ti < ti)) by lia.
    rewrite (bool_decide_eq_true_2 (ti = ti)) by lia.
    replace (headIdx q + 1 - 1) with (headIdx q) by lia.
    repeat split; try lia; try done.
    intros r Hr.
    apply elem_of_app in Hr as [Hr|Hr].
    { apply alloc_allocated, Hal1; [done|]. by eapply subseteq_take. }
    apply elem_of_cons in Hr as [->|Hr].
    { apply alloc_fresh. }
    apply alloc_allocated, Hal1; [done|]. by eapply subseteq_drop.
  - destruct (zlookup_lt (blocks q) ti Hti') as [tl Htl']. rewrite Htl'. simpl.
    eexists; split; [done|]. simpl. repeat split; try lia; eauto.
Qed.

Lemma Pop_wf s : wf s → ∃ v s', Pop s = Some (v, s') ∧ wf s'.
Proof.
  destruct s as [h q]. intros (Hho & Hto & Hhi & Hti & Hhd & Htl & Hal).
  assert (Hhal : allocated h (head q)) by (apply Hal; by eapply zlookup_elem_of).
  destruct (load_allocated h (head q) (headOff q) Hhal Hho) as [v Hv].
  destruct (store_Some h (head q) (headOff q) nil_iface Hhal Hho)
    as (blk & Hblk & Hst).
  assert (Hal1 : ∀ r, r ∈ blocks q →
                 allocated (<[head q := <[Z.to_nat (headOff q) := nil_iface]> blk]> h) r)
    by (intros; eapply store_allocated; eauto).
  unfold Pop. rewrite Hv, Hst. simpl. exists v.
  case_bool_decide as Hfull.
  2: { eexists; split; [done|]. simpl. repeat split; try lia; eauto. }
  rewrite bool_decide_eq_false_2 by lia.
  rewrite (rem_succ_bounds _ _ Hhi).
  set (hi := if bool_decide (headIdx q + 1 = _) then 0 else headIdx q + 1).
  assert (Hhi' : 0 ≤ hi < Z.of_nat (length (blocks q)))
    by (subst hi; case_bool_decide; lia).
  destruct (zlookup_lt (blocks q) hi Hhi') as [hd Hhd']. rewrite Hhd'. simpl.
  eexists; split; [done|]. simpl. repeat split; try lia; eauto.
Qed.

Lemma Front_wf s : wf s → ∃ v, Front s = Some v.
Proof.
  destruct s as [h q]. intros (Hho & Hto & Hhi & Hti & Hhd & Htl & Hal).
  apply load_allocated; [|done]. apply Hal. by eapply zlookup_elem_of.
Qed.

Lemma clear_block_allocated h r :
  allocated h r →
  ∃ h', clear_block h r = Some h' ∧ ∀ r', allocated h r' → allocated h' r'.
Proof.
  intros (blk & Hb & Hlen). unfold clear_block. rewrite Hb. simpl.
  eexists; split; [done|]. intros r' (blk' & Hb' & Hlen').
  destruct (decide (r = r')) as [->|Hne].
  - eexists. rewrite list_lookup_insert_eq by (by eapply lookup_lt_Some).
    split; [done|]. by rewrite length_replicate.
  - exists blk'. by rewrite list_lookup_insert_ne.
Qed.

Lemma clear_blocks_allocated rs : ∀ h,
  (∀ r, r ∈ rs → allocated h r) →
  ∃ h', clear_blocks h rs = Some h' ∧ ∀ r', allocated h r' → allocated h' r'.
Proof.
  induction rs as [|r rs IH]; intros h Hal; simpl.
  - eauto.
  - destruct (clear_block_allocated h r) as (h1 & -> & Hal1).
    { apply Hal. by left. }
    simpl. destruct (IH h1) as (h2 & -> & Hal2).
    { intros r' Hr'. apply Hal1, Hal. by right. }
    eauto.
Qed.

Lemma Reset_wf s : wf s → ∃ s', Reset s = Some s' ∧ wf s'.
Proof.
  destruct s as [h q]. intros (Hho & Hto & Hhi & Hti & Hhd & Htl & Hal).
  unfold Reset.
  destruct (zlookup_lt (blocks q) 0) as [r0 Hr0]; [lia|]. rewrite Hr0. simpl.
  destruct (clear_blocks_allocated (blocks q) h Hal) as (h' & -> & Hal').
  simpl. eexists; split; [done|]. simpl. unfold blockSize.
  repeat split; try lia; try done. eauto.
Qed.

(** ** The closed form of [Size], and [Empty] *)

Lemma Empty_iff_Size s : wf s → Empty s.2 = true ↔ Size s.2 = 0.
Proof.
  destruct s as [h q]. intros (Hho & Hto & Hhi & Hti & _). simpl.
  unfold Empty, Size, blockSize in *.
  rewrite andb_true_iff, !bool_decide_eq_true.
  repeat case_bool_decide; lia.
Qed.

Lemma repr_Size s l : repr s l → Size s.2 = Z.of_nat (length l).
Proof.
  destruct s as [h q].
  intros ((Hho & Hto & Hhi & Hti & _) & _ & Hcap & Hti' & Hto' & _). simpl.
  unfold Size, ring_idx, blockSize in *.
  repeat case_bool_decide; Z.div_mod_to_equations; lia.
Qed.

Lemma repr_New h : repr (New h) [].
Proof.
  split; [apply New_wf|]. simpl. unfold ring_idx, blockSize. simpl.
  split; [apply NoDup_singleton|]. repeat split; try done.
Qed.

(** ** Slots of the ring *)

(** Arithmetic on ring positions: case analysis on the wrap-around, then
    linear arithmetic with the quotient and remainder by the block size. *)
Ltac ring_arith :=
  unfold ring_idx, blockSize in *; simpl in *;
  repeat case_bool_decide; Z.div_mod_to_equations; lia.

(** Two positions of the ring that fall into the same slot are equal. *)
Lemma ring_cell_inj q p1 p2 r :
  NoDup (blocks q) →
  0 ≤ headIdx q < Z.of_nat (length (blocks q)) →
  0 ≤ p1 < Z.of_nat (length (blocks q)) * blockSize →
  0 ≤ p2 < Z.of_nat (length (blocks q)) * blockSize →
  zlookup (blocks q) (ring_idx q (p1 / blockSize)) = Some r →
  zlookup (blocks q) (ring_idx q (p2 / blockSize)) = Some r →
  p1 mod blockSize = p2 mod blockSize →
  p1 = p2.
Proof.
  intros Hnd Hhi Hp1 Hp2 [Hi1 Hl1]%zlookup_Some [Hi2 Hl2]%zlookup_Some Hmod.
  pose proof (NoDup_lookup _ _ _ _ Hnd Hl1 Hl2) as Heq.
  apply Z2Nat.inj in Heq; [|lia..].
  unfold ring_idx, blockSize in *.
  repeat case_bool_decide; Z.div_mod_to_equations; lia.
Qed.

Lemma cell_store h q r off x h1 p :
  store h r off x = Some h1 →
  cell h1 q p =
    r' ← zlookup (blocks q) (ring_idx q (p / blockSize));
    if bool_decide (r = r' ∧ off = p mod blockSize) then Some x
    else load h r' (p mod blockSize).
Proof.
  intros Hst. unfold cell.
  destruct (zlookup _ _) as [r'|]; [|done]. simpl. by eapply load_store.
Qed.

(** A store into a slot of the ring leaves the other slots as they are. *)
Lemma cell_store_other h q r off x h1 p p0 :
  NoDup (blocks q) →
  0 ≤ headIdx q < Z.of_nat (length (blocks q)) →
  0 ≤ p < Z.of_nat (length (blocks q)) * blockSize →
  0 ≤ p0 < Z.of_nat (length (blocks q)) * blockSize →
  zlookup (blocks q) (ring_idx q (p0 / blockSize)) = Some r →
  off = p0 mod blockSize →
  p ≠ p0 →
  store h r off x = Some h1 →
  cell h1 q p = cell h q p.
Proof.
  intros Hnd Hhi Hp Hp0 Hr -> Hne Hst. rewrite (cell_store _ _ _ _ _ _ _ Hst).
  unfold cell. destruct (zlookup _ (ring_idx q (p / _))) as [r'|] eqn:Hr'; [|done].
  simpl. rewrite bool_decide_eq_false_2; [done|]. intros [-> Hmod].
  apply Hne. by eapply ring_cell_inj.
Qed.

(** The slot just written holds the value. *)
Lemma cell_store_same h q r off x h1 p :
  zlookup (blocks q) (ring_idx q (p / blockSize)) = Some r →
  off = p mod blockSize →
  store h r off x = Some h1 →
  cell h1 q p = Some x.
Proof.
  intros Hr -> Hst. rewrite (cell_store _ _ _ _ _ _ _ Hst), Hr. simpl.
  by rewrite bool_decide_eq_true_2.
Qed.

(** [cell] looks at the ring through [blocks] and [headIdx] only. *)
Lemma cell_ext h q q' p :
  blocks q' = blocks q → headIdx q' = headIdx q → cell h q' p = cell h q p.
Proof. intros Hb Hh. unfold cell, ring_idx. by rewrite Hb, Hh. Qed.

Lemma NoDup_insert_at (l : list nat) (t : nat) (r : nat) :
  NoDup l → r ∉ l → NoDup (take t l ++ r :: drop t l).
Proof.
  intros Hnd Hr.
  assert (Hp : take t l ++ r :: drop t l ≡ₚ r :: l).
  { rewrite <-Permutation_middle. by rewrite take_drop. }
  rewrite Hp. by apply NoDup_cons.
Qed.

(** The slots of the ring after [Push] has inserted a fresh block at the
    position of the head block. *)
Lemma cell_insert h q q' p :
  0 ≤ headIdx q < Z.of_nat (length (blocks q)) →
  0 ≤ p < Z.of_nat (length (blocks q)) * blockSize →
  blocks q' = take (Z.to_nat (headIdx q)) (blocks q)
                ++ length h :: drop (Z.to_nat (headIdx q)) (blocks q) →
  headIdx q' = headIdx q + 1 →
  (∀ r, r ∈ blocks q → (r < length h)%nat) →
  cell (h ++ [new_block]) q' p = cell h q p.
Proof.
  intros Hhi Hp Hb Hh Hlt. unfold cell.
  assert (Hz : zlookup (blocks q') (ring_idx q' (p / blockSize))
               = zlookup (blocks q) (ring_idx q (p / blockSize))).
  { unfold ring_idx. rewrite Hb, length_insert_at, Hh by lia.
    rewrite zlookup_insert_at by lia. unfold blockSize in *.
    repeat case_bool_decide; try (Z.div_mod_to_equations; lia).
    all: f_equal; lia. }
  rewrite Hz. destruct (zlookup (blocks q) _) as [r|] eqn:Hr; [|done]. simpl.
  apply load_alloc, Hlt. by eapply zlookup_elem_of.
Qed.

(** ** Push appends an item *)

Lemma repr_Push x s l : repr s l → ∃ s', Push x s = Some s' ∧ repr s' (l ++ [x]).
Proof.
  destruct s as [h q]. intros (Hwf & Hnd & Hcap & Hti' & Hto' & Hcells).
  destruct (Push_wf x (h, q) Hwf) as (s' & HP & Hwf'). exists s'.
  split; [done|].
  destruct Hwf as (Hho & Hto & Hhi & Hti & Hhd & Htl & Hal).
  unfold Push in HP.
  destruct (store h (tail q) (tailOff q) x) as [h1|] eqn:Hst; [|done].
  simpl in HP.
  set (len := Z.of_nat (length l)) in *.
  assert (Hlen : 0 ≤ len) by lia.
  assert (Hlen' : Z.of_nat (length (l ++ [x])) = len + 1)
    by (rewrite length_app; simpl; lia).
  assert (Htlr : zlookup (blocks q) (ring_idx q ((headOff q + len) / blockSize))
                 = Some (tail q)) by (by rewrite <-Hti').
  assert (Hold : ∀ (i : nat) y, l !! i = Some y →
                   cell h1 q (headOff q + Z.of_nat i) = Some y).
  { intros i y Hi. rewrite <-(Hcells i y Hi).
    apply lookup_lt_Some in Hi.
    eapply (cell_store_other h q (tail q) (tailOff q) x h1 _ (headOff q + len));
      try done; lia. }
  assert (Hnew : cell h1 q (headOff q + len) = Some x)
    by (by eapply cell_store_same).
  assert (Hall : ∀ (i : nat) y, (l ++ [x]) !! i = Some y →
                   cell h1 q (headOff q + Z.of_nat i) = Some y).
  { intros i y [Hi|[Hi Hx]]%lookup_app_Some; [by apply Hold|].
    apply list_lookup_singleton_Some in Hx as [Hx <-].
    replace (Z.of_nat i) with len by lia. done. }
  clear Hold Hnew Hcells.
  case_bool_decide as Hfull.
  2: { injection HP as <-. split; [done|]. simpl. rewrite Hlen'.
       split; [done|]. unfold ring_idx, blockSize in *. simpl.
       repeat split; [ring_arith..|done]. }
  rewrite bool_decide_eq_false_2 in HP by lia.
  rewrite (rem_succ_bounds _ _ Hti) in HP.
  set (ti := if bool_decide (tailIdx q + 1 = _) then 0 else tailIdx q + 1) in *.
  case_bool_decide as Hcoll.
  - rewrite bool_decide_eq_true_2 in HP by (subst ti; case_bool_decide; lia).
    unfold alloc in HP. simpl in HP.
    destruct (zlookup _ (headIdx q + 1)) as [hd|] eqn:Hhd'; [|done].
    simpl in HP.
    destruct (zlookup _ ti) as [tl|] eqn:Htl'; [|done].
    injection HP as <-. split; [done|]. simpl. rewrite Hlen'.
    assert (Hlt : ∀ r, r ∈ blocks q → (r < length h1)%nat).
    { intros r Hr. rewrite (store_length _ _ _ _ _ Hst).
      by apply allocated_lt, Hal. }
    split.
    { apply NoDup_insert_at; [done|]. intros Hin%Hlt. lia. }
    assert (Hti0 : 0 ≤ ti ≤ Z.of_nat (length (blocks q)))
      by (subst ti; case_bool_decide; lia).
    unfold ring_idx at 1. simpl. rewrite length_insert_at by done.
    repeat split.
    + subst ti. ring_arith.
    + subst ti. ring_arith.
    + subst ti. ring_arith.
    + intros i y Hi. rewrite <-(Hall i y Hi).
      apply lookup_lt_Some in Hi. rewrite length_app in Hi. simpl in Hi.
      apply cell_insert; simpl; try done.
      * subst ti. ring_arith.
      * by rewrite Hcoll.
  - destruct (zlookup (blocks q) ti) as [tl|] eqn:Htl'; [|done].
    injection HP as <-. split; [done|]. simpl. rewrite Hlen'.
    split; [done|]. subst ti. unfold ring_idx, blockSize in *. simpl.
    repeat split; [ring_arith..|done].
Qed.

(** ** Pop removes the oldest item *)

Lemma repr_Pop x s l : repr s (x :: l) → ∃ s', Pop s = Some (x, s') ∧ repr s' l.
Proof.
  destruct s as [h q]. intros (Hwf & Hnd & Hcap & Hti' & Hto' & Hcells).
  destruct (Pop_wf (h, q) Hwf) as (v & s' & HP & Hwf'). exists s'.
  destruct Hwf as (Hho & Hto & Hhi & Hti & Hhd & Htl & Hal).
  simpl length in *.
  set (len := Z.of_nat (length l)) in *.
  assert (Hlen : 0 ≤ len) by lia.
  replace (Z.of_nat (S (length l))) with (len + 1) in * by lia.
  assert (Hhdr : zlookup (blocks q) (ring_idx q (headOff q / blockSize))
                 = Some (head q)).
  { rewrite <-Hhd. f_equal. ring_arith. }
  assert (Hmod : headOff q = headOff q mod blockSize) by ring_arith.
  cut (v = x ∧ repr s' l); [by intros [-> ?]|].
  unfold Pop in HP.
  destruct (load h (head q) (headOff q)) as [v0|] eqn:Hld; [|done].
  simpl in HP.
  assert (Hv0 : v0 = x).
  { pose proof (Hcells 0%nat x eq_refl) as Hc. unfold cell in Hc.
    replace (headOff q + Z.of_nat 0) with (headOff q) in Hc by lia.
    rewrite Hhdr in Hc. simpl in Hc. rewrite <-Hmod in Hc. congruence. }
  destruct (store h (head q) (headOff q) nil_iface) as [h1|] eqn:Hst; [|done].
  simpl in HP.
  assert (Hrest : ∀ (i : nat) y, l !! i = Some y →
                    cell h1 q (headOff q + 1 + Z.of_nat i) = Some y).
  { intros i y Hi. rewrite <-(Hcells (S i) y Hi).
    apply lookup_lt_Some in Hi.
    replace (headOff q + Z.of_nat (S i)) with (headOff q + 1 + Z.of_nat i) by lia.
    eapply (cell_store_other h q (head q) (headOff q) _ h1 _ (headOff q));
      try done; lia. }
  clear Hcells.
  case_bool_decide as Hfull.
  2: { injection HP as <- <-. split; [done|]. split; [done|]. simpl.
       split; [done|]. fold len.
       repeat split; [ring_arith..|].
       intros i y Hi. rewrite <-(Hrest i y Hi). by apply cell_ext. }
  rewrite bool_decide_eq_false_2 in HP by lia.
  rewrite (rem_succ_bounds _ _ Hhi) in HP.
  set (hi := if bool_decide (headIdx q + 1 = _) then 0 else headIdx q + 1) in *.
  destruct (zlookup (blocks q) hi) as [hd|] eqn:Hhd'; [|done].
  injection HP as <- <-. split; [done|]. split; [done|]. simpl.
  split; [done|]. fold len.
  repeat split; [subst hi; ring_arith..|].
  intros i y Hi. rewrite <-(Hrest i y Hi).
  apply lookup_lt_Some in Hi.
  unfold cell. simpl.
  replace (ring_idx _ (Z.of_nat i / blockSize))
    with (ring_idx q ((headOff q + 1 + Z.of_nat i) / blockSize))
    by (subst hi; ring_arith).
  replace ((headOff q + 1 + Z.of_nat i) mod blockSize)
    with ((0 + Z.of_nat i) mod blockSize) by ring_arith.
  done.
Qed.

(** ** Runs *)

Lemma push_all_repr vs : ∀ s l,
  repr s l → ∃ s', push_all vs s = Some s' ∧ repr s' (l ++ vs).
Proof.
  induction vs as [|v vs IH]; intros s l Hr; simpl.
  - exists s. by rewrite app_nil_r.
  - destruct (repr_Push v s l Hr) as (s1 & -> & Hr1). simpl.
    destruct (IH s1 _ Hr1) as (s2 & -> & Hr2).
    exists s2. by rewrite <-app_assoc in Hr2.
Qed.

Lemma pop_n_repr vs : ∀ s l,
  repr s (vs ++ l) → ∃ s', pop_n (length vs) s = Some (vs, s') ∧ repr s' l.
Proof.
  induction vs as [|v vs IH]; intros s l Hr; simpl.
  - by exists s.
  - destruct (repr_Pop v s _ Hr) as (s1 & -> & Hr1). simpl.
    destruct (IH s1 _ Hr1) as (s2 & -> & Hr2). simpl. by exists s2.
Qed.

Lemma pushes_cons o os :
  pushes (o :: os) = (if is_push o then 1 else 0) + pushes (A:=A) os.
Proof. done. Qed.

Lemma pops_cons o os :
  pops (o :: os) = (if is_pop o then 1 else 0) + pops (A:=A) os.
Proof. done. Qed.

Lemma run_repr os : ∀ s l,
  repr s l → push_pop_run (length l) os = true →
  ∃ s' l', run os s = Some s' ∧ repr s' l' ∧
           Z.of_nat (length l') = Z.of_nat (length l) + pushes os - pops os.
Proof.
  induction os as [|o os IH]; intros s l Hr Hrun.
  - exists s, l. simpl. split_and!; [done..|lia].
  - rewrite pushes_cons, pops_cons.
    destruct o as [data| | |]; simpl in Hrun; try done.
    + destruct (repr_Push data s l Hr) as (s1 & HP & Hr1).
      destruct (IH s1 (l ++ [data]) Hr1) as (s' & l' & Hrn & Hr' & Hlen).
      { rewrite length_app. simpl. by rewrite Nat.add_1_r. }
      exists s', l'. simpl. rewrite HP. simpl. split_and!; [done..|].
      rewrite Hlen, length_app. simpl. lia.
    + destruct l as [|x l]; simpl in Hrun; [done|].
      destruct (repr_Pop x s l Hr) as (s1 & HP & Hr1).
      destruct (IH s1 l Hr1 Hrun) as (s' & l' & Hrn & Hr' & Hlen).
      exists s', l'. simpl. rewrite HP. simpl. split_and!; [done..|].
      rewrite Hlen. simpl length. lia.
Qed.

Lemma exec_wf s o :
  wf s → ∃ res s', exec o s = Some (res, s') ∧ wf s'.
Proof.
  intros Hwf. destruct o as [data| | |]; simpl.
  - destruct (Push_wf data s Hwf) as (s' & -> & Hwf'). simpl. eauto.
  - destruct (Pop_wf s Hwf) as (v & s' & -> & Hwf'). simpl. eauto.
  - destruct (Front_wf s Hwf) as (v & ->). simpl. eauto.
  - destruct (Reset_wf s Hwf) as (s' & -> & Hwf'). simpl. eauto.
Qed.

(** ** The properties of the queue *)

(** C7. The values pushed onto a fresh queue come back from as many pops,
    in the order of the pushes; the sequence is arbitrary, so that the
    pushes may fill any number of blocks and make the ring grow. *)
Theorem push_pop_fifo (h : Heap) (vs : list iface) :
  ∃ s s', push_all vs (New h) = Some s ∧
          pop_n (length vs) s = Some (vs, s').
Proof.
  destruct (push_all_repr vs (New h) [] (repr_New h)) as (s & Hpush & Hr).
  simpl in Hr. rewrite <-(app_nil_r vs) in Hr.
  destruct (pop_n_repr vs s [] Hr) as (s' & Hpop & _).
  by exists s, s'.
Qed.

(** C8. After a run of pushes and pops from a fresh queue in which no pop
    finds the queue empty, [Size] is the number of pushes minus the number
    of pops, and [Empty] holds exactly when [Size] is zero. *)
Theorem size_is_pushes_minus_pops (h : Heap) (os : list op) :
  push_pop_run 0 os = true →
  ∃ s, run os (New h) = Some s ∧
       Size s.2 = pushes os - pops os ∧
       (Empty s.2 = true ↔ Size s.2 = 0).
Proof.
  intros Hrun.
  destruct (run_repr os (New h) [] (repr_New h) Hrun) as (s & l & Hrn & Hr & Hlen).
  exists s. split; [done|]. split.
  - rewrite (repr_Size s l Hr), Hlen. simpl. lia.
  - apply Empty_iff_Size. by destruct s, Hr.
Qed.

(** C9. Each of [Push], [Pop], [Front] and [Reset], called in a state with
    the offsets inside a block, the indices inside the ring, [head] and
    [tail] the blocks at the two indices and every block allocated with
    [blockSize] slots, returns without an index out of range, in a state of
    the same kind; nothing is asked of the number of items, so that [Pop]
    and [Front] on an empty queue are covered.  [New_wf] has the invariant
    at the start. *)
Theorem ops_keep_index_invariant (s : @State A) (o : op) :
  wf s → ∃ res s', exec o s = Some (res, s') ∧ wf s'.
Proof. apply exec_wf. Qed.

(** Any run of operations on a fresh queue is free of index panics. *)
Lemma run_wf (os : list op) : ∀ s : @State A,
  wf s → ∃ s', run os s = Some s' ∧ wf s'.
Proof.
  induction os as [|o os IH]; intros s Hwf; simpl; [eauto|].
  destruct (exec_wf s o Hwf) as (res & s1 & -> & Hwf1). simpl. by apply IH.
Qed.

End queue_facts.

(** ** Concrete runs *)

(** Two pushes, a pop, a push and two pops on a fresh queue. *)
Lemma size_is_pushes_minus_pops_witness :
  let os := [OpPush (Some 7%nat); OpPush None; OpPop; OpPush (Some 9%nat);
             OpPop; OpPop] in
  push_pop_run 0 os = true ∧
  ∃ s, run os (New []) = Some s ∧
       Size s.2 = pushes os - pops os ∧
       (Empty s.2 = true ↔ Size s.2 = 0).
Proof.
  split; [reflexivity|].
  apply (size_is_pushes_minus_pops (A:=nat) []). reflexivity.
Defined.

(** A pop on a fresh, empty queue. *)
Lemma ops_keep_index_invariant_witness :
  wf (New (A:=nat) []) ∧
  ∃ res s', exec OpPop (New (A:=nat) []) = Some (res, s') ∧ wf s'.
Proof.
  split; [apply New_wf|].
  apply (ops_keep_index_invariant (New (A:=nat) []) OpPop). apply New_wf.
Defined.

(** A pop that finds the queue empty moves the head past the tail: the run
    of one pop and one push ends with the pushed item out of reach, and a
    size of zero. *)
Example pop_on_empty_loses_the_next_push :
  ∃ s, run [OpPop; OpPush (Some 7%nat)] (New []) = Some s ∧
       Size s.2 = 0 ∧ Empty s.2 = true ∧ headOff s.2 = 1 ∧ tailOff s.2 = 1.
Proof. eexists. by vm_compute. Qed.

Section queue_more.
Context {A : Type}.
#[local] Abbreviation iface := (option A).
#[local] Abbreviation block := (list iface).
#[local] Abbreviation Heap := (list block).
Implicit Types (h : Heap) (q : Queue) (s : @State A) (x v : iface).
Implicit Types (r : nat) (blk : block) (l : list iface).

Ltac ring_arith :=
  unfold capacity, ring_idx, blockSize in *; simpl in *;
  repeat case_bool_decide; Z.div_mod_to_equations; lia.

(** ** What a call changes *)

(** [Push] stores into the tail slot; it leaves the ring as it is, or
    inserts one fresh block at the place of the head block, which moves up
    by one, when the tail would enter the head block. *)
Lemma Push_shape x h q h' q' :
  wf (h, q) → Push x (h, q) = Some (h', q') →
  headOff q' = headOff q ∧
  ∃ h1, store h (tail q) (tailOff q) x = Some h1 ∧
    let next := if bool_decide (tailIdx q + 1 = Z.of_nat (length (blocks q)))
                then 0 else tailIdx q + 1 in
    if bool_decide (tailOff q + 1 = blockSize ∧ next = headIdx q) then
      h' = h1 ++ [new_block] ∧
      blocks q' = take (Z.to_nat (headIdx q)) (blocks q)
                    ++ length h1 :: drop (Z.to_nat (headIdx q)) (blocks q) ∧
      headIdx q' = headIdx q + 1
    else h' = h1 ∧ blocks q' = blocks q ∧ headIdx q' = headIdx q.
Proof.
  intros (Hho & Hto & Hhi & Hti & Hhd & Htl & Hal) HP. unfold Push in HP.
  destruct (store h (tail q) (tailOff q) x) as [h1|] eqn:Hst; [|done].
  simpl in HP.
  case_bool_decide as Hfull.
  2: { injection HP as <- <-. split; [done|]. exists h1. split; [done|].
       simpl. rewrite bool_decide_eq_false_2 by tauto. done. }
  rewrite bool_decide_eq_false_2 in HP by lia.
  rewrite (rem_succ_bounds _ _ Hti) in HP.
  set (ti := if bool_decide (tailIdx q + 1 = _) then 0 else tailIdx q + 1) in *.
  case_bool_decide as Hcoll.
  - rewrite bool_decide_eq_true_2 in HP by lia.
    unfold alloc in HP. simpl in HP.
    destruct (zlookup _ (headIdx q + 1)) as [hd|]; [|done]. simpl in HP.
    destruct (zlookup _ ti) as [tl|]; [|done].
    injection HP as <- <-. split; [done|]. exists h1. split; [done|].
    simpl. rewrite bool_decide_eq_true_2 by done. by rewrite Hcoll.
  - destruct (zlookup (blocks q) ti) as [tl|]; [|done].
    injection HP as <- <-. split; [done|]. exists h1. split; [done|].
    simpl. rewrite bool_decide_eq_false_2 by tauto. done.
Qed.

(** [Pop] reads the head slot and clears it; the ring and the tail stay,
    the head moves on by one slot. *)
Lemma Pop_shape h q v h' q' :
  wf (h, q) → Pop (h, q) = Some (v, (h', q')) →
  load h (head q) (headOff q) = Some v ∧
  store h (head q) (headOff q) nil_iface = Some h' ∧
  blocks q' = blocks q ∧ tailIdx q' = tailIdx q ∧ tailOff q' = tailOff q ∧
  if bool_decide (headOff q + 1 = blockSize) then
    headOff q' = 0 ∧
    headIdx q' = (if bool_decide (headIdx q + 1 = Z.of_nat (length (blocks q)))
                  then 0 else headIdx q + 1)
  else headOff q' = headOff q + 1 ∧ headIdx q' = headIdx q.
Proof.
  intros (Hho & Hto & Hhi & Hti & Hhd & Htl & Hal) HP. unfold Pop in HP.
  destruct (load h (head q) (headOff q)) as [v0|] eqn:Hld; [|done].
  simpl in HP.
  destruct (store h (head q) (headOff q) nil_iface) as [h1|] eqn:Hst; [|done].
  simpl in HP.
  case_bool_decide as Hfull.
  2: { by injection HP as <- <- <-. }
  rewrite bool_decide_eq_false_2 in HP by lia.
  rewrite (rem_succ_bounds _ _ Hhi) in HP.
  set (hi := if bool_decide (headIdx q + 1 = _) then 0 else headIdx q + 1) in *.
  destruct (zlookup (blocks q) hi) as [hd|]; [|done].
  by injection HP as <- <- <-.
Qed.

(** ** Free slots are nil *)

Lemma load_alloc_fresh h o :
  0 ≤ o < blockSize → load (h ++ [new_block]) (length h) o = Some nil_iface.
Proof.
  intros Ho. unfold load. rewrite lookup_app_r by lia.
  rewrite Nat.sub_diag. simpl. unfold zlookup, new_block.
  rewrite bool_decide_eq_true_2 by lia.
  apply lookup_replicate_2. unfold blockSize in *. lia.
Qed.

Lemma clean_New h : clean (New h) [].
Proof.
  unfold New, alloc. simpl. intros p Hp _. unfold cell.
  replace (ring_idx _ (p / blockSize)) with 0 by ring_arith.
  simpl. apply load_alloc_fresh. ring_arith.
Qed.

Lemma clean_Push x s s' l :
  repr s l → clean s l → Push x s = Some s' → clean s' (l ++ [x]).
Proof.
  destruct s as [h q], s' as [h' q'].
  intros (Hwf & Hnd & Hcap & Hti' & Hto' & Hcells) Hc HP.
  destruct (Push_shape _ _ _ _ _ Hwf HP) as (Hho' & h1 & Hst & Hsh).
  destruct Hwf as (Hho & Hto & Hhi & Hti & Hhd & Htl & Hal).
  unfold clean in *. rewrite length_app. simpl length.
  set (len := Z.of_nat (length l)) in *.
  assert (Hlen : 0 ≤ len) by lia.
  replace (Z.of_nat (length l + 1)) with (len + 1) by lia.
  assert (Htlr : zlookup (blocks q) (ring_idx q ((headOff q + len) / blockSize))
                 = Some (tail q)) by (by rewrite <-Hti').
  assert (K : ∀ p, 0 ≤ p < Z.of_nat (length (blocks q)) * blockSize →
                   ¬ (headOff q ≤ p < headOff q + (len + 1)) →
                   cell h1 q p = Some nil_iface).
  { intros p Hp Hfree. rewrite <-(Hc p Hp) by lia.
    eapply (cell_store_other h q (tail q) (tailOff q) x h1 _ (headOff q + len));
      try done; lia. }
  simpl in Hsh. case_bool_decide as Hins.
  - destruct Hsh as (-> & Hb & Hh). destruct Hins as [Hfull Hcoll].
    assert (Hfill : headOff q + len + 1 = Z.of_nat (length (blocks q)) * blockSize)
      by ring_arith.
    assert (Hlt : ∀ r, r ∈ blocks q → (r < length h1)%nat).
    { intros r Hr. rewrite (store_length _ _ _ _ _ Hst).
      by apply allocated_lt, Hal. }
    intros p Hp Hfree. rewrite Hho' in Hfree.
    rewrite Hb, length_insert_at in Hp by lia.
    destruct (decide (p < Z.of_nat (length (blocks q)) * blockSize)) as [Hold|Hnew].
    + rewrite (cell_insert h1 q q' p) by (done || lia). apply K; lia.
    + unfold cell.
      assert (Hz : zlookup (blocks q') (ring_idx q' (p / blockSize))
                   = Some (length h1)).
      { unfold ring_idx. rewrite Hb, length_insert_at, Hh by lia.
        rewrite zlookup_insert_at by lia. unfold blockSize in *.
        repeat case_bool_decide; try done; Z.div_mod_to_equations; lia. }
      rewrite Hz. simpl. apply load_alloc_fresh. ring_arith.
  - destruct Hsh as (-> & Hb & Hh). intros p Hp Hfree.
    rewrite Hho' in Hfree. rewrite Hb in Hp.
    rewrite (cell_ext h1 q q' p Hb Hh). by apply K.
Qed.

(** The slots of the ring when the head has moved to the next block. *)
Lemma cell_rotate h q q' p :
  0 ≤ headIdx q < Z.of_nat (length (blocks q)) →
  0 ≤ p < Z.of_nat (length (blocks q)) * blockSize →
  blocks q' = blocks q →
  headIdx q' = (if bool_decide (headIdx q + 1 = Z.of_nat (length (blocks q)))
                then 0 else headIdx q + 1) →
  cell h q' p =
    cell h q (if bool_decide (p < (Z.of_nat (length (blocks q)) - 1) * blockSize)
              then p + blockSize
              else p - (Z.of_nat (length (blocks q)) - 1) * blockSize).
Proof.
  intros Hhi Hp Hb Hh. unfold cell.
  set (p0 := if bool_decide (p < _) then p + blockSize else _).
  replace (ring_idx q' (p / blockSize)) with (ring_idx q (p0 / blockSize)).
  2: { subst p0. unfold ring_idx. rewrite Hb, Hh. unfold blockSize in *.
       repeat case_bool_decide; Z.div_mod_to_equations; lia. }
  replace (p mod blockSize) with (p0 mod blockSize); [by rewrite Hb|].
  subst p0. unfold blockSize in *.
  repeat case_bool_decide; Z.div_mod_to_equations; lia.
Qed.

Lemma clean_Pop x s v s' l :
  repr s (x :: l) → clean s (x :: l) → Pop s = Some (v, s') → clean s' l.
Proof.
  destruct s as [h q], s' as [h' q'].
  intros (Hwf & Hnd & Hcap & Hti' & Hto' & Hcells) Hc HP.
  destruct (Pop_shape _ _ _ _ _ Hwf HP) as (Hld & Hst & Hb & _ & _ & Hsh).
  destruct Hwf as (Hho & Hto & Hhi & Hti & Hhd & Htl & Hal).
  unfold clean in *. simpl length in *.
  set (len := Z.of_nat (length l)) in *.
  assert (Hlen : 0 ≤ len) by lia.
  replace (Z.of_nat (S (length l))) with (len + 1) in * by lia.
  assert (Hhdr : zlookup (blocks q) (ring_idx q (headOff q / blockSize))
                 = Some (head q)).
  { rewrite <-Hhd. f_equal. ring_arith. }
  assert (Hmod : headOff q = headOff q mod blockSize) by ring_arith.
  assert (K : ∀ p, 0 ≤ p < Z.of_nat (length (blocks q)) * blockSize →
                   ¬ (headOff q + 1 ≤ p < headOff q + 1 + len) →
                   cell h' q p = Some nil_iface).
  { intros p Hp Hfree. destruct (decide (p = headOff q)) as [->|Hne].
    - by eapply cell_store_same.
    - rewrite <-(Hc p Hp) by lia.
      eapply (cell_store_other h q (head q) (headOff q) _ h' _ (headOff q));
        try done; lia. }
  intros p Hp Hfree. rewrite Hb in Hp. case_bool_decide as Hfull.
  - destruct Hsh as [Hho' Hh]. rewrite Hho' in Hfree.
    rewrite (cell_rotate h' q q' p) by done.
    apply K; ring_arith.
  - destruct Hsh as [Hho' Hh]. rewrite Hho' in Hfree.
    rewrite (cell_ext h' q q' p Hb Hh). apply K; [done|lia].
Qed.

(** ** Reset *)

Lemma clear_blocks_lookup rs : ∀ h h',
  clear_blocks h rs = Some h' →
  ∀ r, h' !! r =
    if decide (r ∈ rs)
    then (λ blk, replicate (length blk) nil_iface) <$> h !! r
    else h !! r.
Proof.
  induction rs as [|r0 rs IH]; intros h h' Hcl r; simpl in Hcl.
  - injection Hcl as <-. rewrite decide_False; [done|]. apply not_elem_of_nil.
  - unfold clear_block in Hcl.
    destruct (h !! r0) as [blk0|] eqn:Hb0; [|done]. simpl in Hcl.
    rewrite (IH _ _ Hcl r).
    destruct (decide (r = r0)) as [->|Hne].
    + rewrite list_lookup_insert_eq by (by eapply lookup_lt_Some).
      rewrite Hb0, (decide_True (P := r0 ∈ r0 :: rs)) by (by left).
      simpl. case_decide; [|done]. by rewrite length_replicate.
    + rewrite list_lookup_insert_ne by done.
      destruct (decide (r ∈ rs)) as [Hin|Hnin].
      * by rewrite decide_True by (by right).
      * rewrite decide_False; [done|]. by intros [?|?]%elem_of_cons.
Qed.

(** [Reset] leaves the empty queue on the blocks it had, all slots nil. *)
Lemma Reset_repr s l :
  repr s l →
  ∃ s', Reset s = Some s' ∧ repr s' [] ∧ clean s' [] ∧ blocks s'.2 = blocks s.2.
Proof.
  destruct s as [h q]. intros (Hwf & Hnd & _).
  destruct (Reset_wf _ Hwf) as ([h' q'] & HR & Hwf'). exists (h', q').
  split; [done|].
  destruct Hwf as (Hho & Hto & Hhi & Hti & Hhd & Htl & Hal).
  unfold Reset in HR.
  destruct (zlookup (blocks q) 0) as [r0|] eqn:Hr0; [|done]. simpl in HR.
  destruct (clear_blocks h (blocks q)) as [h1|] eqn:Hcl; [|done].
  injection HR as <- <-. split_and!; [|simpl|done].
  - split; [done|]. simpl. split; [done|].
    split_and!; [ring_arith..|]. by intros i y Hi.
  - intros p Hp _. unfold cell. simpl.
    destruct (zlookup_lt (blocks q) (ring_idx
      {| tailIdx := 0; headIdx := 0; tailOff := 0; headOff := 0;
         blocks := blocks q; head := r0; tail := r0 |} (p / blockSize)))
      as [r Hr]; [ring_arith|].
    rewrite Hr. simpl. unfold load.
    rewrite (clear_blocks_lookup _ _ _ Hcl r).
    rewrite decide_True by (by eapply zlookup_elem_of).
    destruct (Hal r) as (blk & -> & Hlen); [by eapply zlookup_elem_of|].
    simpl. unfold zlookup. rewrite bool_decide_eq_true_2 by ring_arith.
    apply lookup_replicate_2. ring_arith.
Qed.

(** ** The queue and the list of its items *)

Lemma Front_repr x s l : repr s (x :: l) → Front s = Some x.
Proof.
  intros Hr. destruct (repr_Pop x s l Hr) as ([h' q'] & HP & _).
  destruct s as [h q]. destruct Hr as (Hwf & _).
  by destruct (Pop_shape _ _ _ _ _ Hwf HP) as (Hld & _).
Qed.

Lemma exec_refines o s l res l' :
  repr s l → clean s l → list_exec o l = Some (res, l') →
  ∃ s', exec o s = Some (res, s') ∧ repr s' l' ∧ clean s' l'.
Proof.
  intros Hr Hc Hl. destruct o as [data| | |]; simpl in *.
  - injection Hl as <- <-.
    destruct (repr_Push data s l Hr) as (s' & HP & Hr').
    exists s'. rewrite HP. split_and!; [done..|]. by eapply clean_Push.
  - destruct l as [|x l0]; [done|]. injection Hl as <- <-.
    destruct (repr_Pop x s l0 Hr) as (s' & HP & Hr').
    exists s'. rewrite HP. split_and!; [done..|]. by eapply clean_Pop.
  - destruct l as [|x l0]; [done|]. injection Hl as <- <-.
    exists s. rewrite (Front_repr x s l0 Hr). done.
  - injection Hl as <- <-.
    destruct (Reset_repr s l Hr) as (s' & HR & Hr' & Hc' & _).
    exists s'. by rewrite HR.
Qed.

Lemma run_refines os : ∀ s l outs l',
  repr s l → clean s l → list_run os l = Some (outs, l') →
  ∃ s', run_out os s = Some (outs, s') ∧ repr s' l' ∧ clean s' l'.
Proof.
  induction os as [|o os IH]; intros s l outs l' Hr Hc Hl; simpl in *.
  - injection Hl as <- <-. by exists s.
  - destruct (list_exec o l) as [[res l1]|] eqn:Hex; [|done]. simpl in Hl.
    destruct (list_run os l1) as [[outs1 l2]|] eqn:Hrun; [|done].
    injection Hl as <- <-.
    destruct (exec_refines o s l res l1 Hr Hc Hex) as (s1 & -> & Hr1 & Hc1).
    simpl. destruct (IH s1 l1 outs1 l2 Hr1 Hc1 Hrun) as (s2 & -> & Hr2 & Hc2).
    by exists s2.
Qed.

(** The states of a fresh queue after a run that the list can follow. *)
Lemma reach h os outs l :
  list_run os [] = Some (outs, l) →
  ∃ s, run_out os (New h) = Some (outs, s) ∧ repr s l ∧ clean s l.
Proof. apply run_refines; [apply repr_New|apply clean_New]. Qed.

(** Every slot of every block of an empty, clean queue is nil. *)
Lemma clean_empty_load s r o :
  repr s [] → clean s [] → r ∈ blocks s.2 → 0 ≤ o < blockSize →
  load s.1 r o = Some nil_iface.
Proof.
  destruct s as [h q]. intros (Hwf & Hnd & _) Hc Hr Ho. simpl in *.
  destruct Hwf as (Hho & Hto & Hhi & Hti & Hhd & Htl & Hal).
  apply list_elem_of_lookup_1 in Hr as [i Hi].
  pose proof (lookup_lt_Some _ _ _ Hi) as Hlt.
  set (n := Z.of_nat (length (blocks q))) in *.
  set (j := if bool_decide (headIdx q ≤ Z.of_nat i)
            then Z.of_nat i - headIdx q else Z.of_nat i - headIdx q + n).
  assert (Hj : 0 ≤ j < n) by (subst j n; case_bool_decide; lia).
  specialize (Hc (j * blockSize + o)). unfold cell in Hc.
  replace (ring_idx q ((j * blockSize + o) / blockSize)) with (Z.of_nat i) in Hc.
  2: { subst j n. ring_arith. }
  replace ((j * blockSize + o) mod blockSize) with o in Hc by ring_arith.
  unfold zlookup in Hc at 1. rewrite bool_decide_eq_true_2 in Hc by lia.
  rewrite Nat2Z.id, Hi in Hc. simpl in Hc. apply Hc; subst n; ring_arith.
Qed.

(** ** Further properties of the queue *)

(** X1. Any run of [Push], [Pop], [Front] and [Reset] on a fresh queue in
    which no [Pop] or [Front] finds the queue empty returns, call by call,
    what the same run returns on the list of the items; at the end [Size]
    is the length of the list and [Empty] holds exactly when the list is
    empty. *)
Theorem queue_refines_list (h : Heap) (os : list op) outs l :
  list_run os [] = Some (outs, l) →
  ∃ s, run_out os (New h) = Some (outs, s) ∧
       Size s.2 = Z.of_nat (length l) ∧
       (Empty s.2 = true ↔ l = []).
Proof.
  intros Hl. destruct (reach h os outs l Hl) as (s & Hrun & Hr & _).
  exists s. split; [done|]. split; [by apply repr_Size|].
  rewrite (Empty_iff_Size s) by (by destruct s, Hr).
  rewrite (repr_Size s l Hr). destruct l; simpl; split; (done || lia).
Qed.

(** X2. After such a run every slot of the ring that holds none of the
    items is [nil]: [Pop] and [Reset] leave no reference behind.  When the
    queue is empty at the end, every slot of every block is [nil]. *)
Theorem free_slots_are_nil (h : Heap) (os : list op) outs l :
  list_run os [] = Some (outs, l) →
  ∃ s, run_out os (New h) = Some (outs, s) ∧ clean s l ∧
       (l = [] → ∀ r o, r ∈ blocks s.2 → 0 ≤ o < blockSize →
                        load s.1 r o = Some nil_iface).
Proof.
  intros Hl. destruct (reach h os outs l Hl) as (s & Hrun & Hr & Hc).
  exists s. split_and!; [done..|]. intros -> r o. by apply clean_empty_load.
Qed.

(** X3. [Push] inserts a block exactly when the slots from the head slot
    to the end of the ring are all taken, and then one block; otherwise the
    ring is as it was.  The blocks of the ring stay in it, and no slot other
    than the tail slot is written: the items are not copied. *)
Theorem Push_grows_only_when_full (h : Heap) (os : list op) outs l x :
  list_run os [] = Some (outs, l) →
  ∃ s s', run_out os (New h) = Some (outs, s) ∧ Push x s = Some s' ∧
          headOff s.2 + Z.of_nat (length l) < capacity s.2 ∧
          (if bool_decide (headOff s.2 + Z.of_nat (length l) + 1 = capacity s.2)
           then capacity s'.2 = capacity s.2 + blockSize
           else blocks s'.2 = blocks s.2) ∧
          (∀ r, r ∈ blocks s.2 → r ∈ blocks s'.2) ∧
          (∀ r o, r ∈ blocks s.2 → (r, o) ≠ (tail s.2, tailOff s.2) →
                  load s'.1 r o = load s.1 r o).
Proof.
  intros Hl. destruct (reach h os outs l Hl) as ([h0 q] & Hrun & Hr & _).
  destruct (repr_Push x _ _ Hr) as ([h' q'] & HP & _).
  exists (h0, q), (h', q'). split; [done|]. split; [done|].
  destruct Hr as (Hwf & Hnd & Hcap & Hti' & Hto' & _).
  destruct (Push_shape _ _ _ _ _ Hwf HP) as (Hho' & h1 & Hst & Hsh).
  destruct Hwf as (Hho & Hto & Hhi & Hti & Hhd & Htl & Hal).
  simpl in *. split; [done|].
  assert (Hload : ∀ r o, (r, o) ≠ (tail q, tailOff q) →
                         load h1 r o = load h0 r o).
  { intros r o Hne. rewrite (load_store _ _ _ _ _ r o Hst).
    rewrite bool_decide_eq_false_2; [done|]. intros [Hr Ho]. apply Hne.
    by rewrite Hr, Ho. }
  case_bool_decide as Hins.
  - destruct Hsh as (-> & Hb & Hh). destruct Hins as [Hfull Hcoll].
    rewrite bool_decide_eq_true_2 by ring_arith.
    split_and!.
    + unfold capacity. rewrite Hb, length_insert_at by lia. lia.
    + intros r Hr. rewrite Hb.
      rewrite <-(take_drop (Z.to_nat (headIdx q)) (blocks q)) in Hr.
      apply elem_of_app in Hr as [Hr|Hr]; apply elem_of_app; [by left|].
      right. by right.
    + intros r o Hr Hne. rewrite load_alloc; [by apply Hload|].
      rewrite (store_length _ _ _ _ _ Hst). by apply allocated_lt, Hal.
  - destruct Hsh as (-> & Hb & Hh).
    rewrite bool_decide_eq_false_2.
    2: { intros Hfull. apply Hins. ring_arith. }
    split_and!; [done| |].
    + intros r Hr. by rewrite Hb.
    + intros r o _ Hne. by apply Hload.
Qed.

(** X4. [Pop] and [Front] do no bounds checking: on a queue that a run has
    left empty they return [nil], and [Pop] moves the head past the tail.
    The queue is then no longer empty for [Empty], and [Size] is -1, or one
    less than the number of slots of the ring when the head was on the last
    slot of its block. *)
Theorem Pop_on_empty_queue (h : Heap) (os : list op) outs :
  list_run os [] = Some (outs, []) →
  ∃ s s', run_out os (New h) = Some (outs, s) ∧
          Front s = Some nil_iface ∧ Pop s = Some (nil_iface, s') ∧
          Empty s'.2 = false ∧
          Size s'.2 = (if bool_decide (headOff s.2 + 1 = blockSize)
                       then capacity s.2 - 1 else -1).
Proof.
  intros Hl. destruct (reach h os outs [] Hl) as ([h0 q] & Hrun & Hr & Hc).
  pose proof Hr as (Hwf & Hnd & Hcap & Hti' & Hto' & _).
  destruct (Pop_wf _ Hwf) as (v & [h' q'] & HP & _).
  destruct (Pop_shape _ _ _ _ _ Hwf HP) as (Hld & Hst & Hb & Hti2 & Hto2 & Hsh).
  pose proof Hwf as (Hho & Hto & Hhi & Hti & Hhd & Htl & Hal).
  assert (Hnil : load h0 (head q) (headOff q) = Some nil_iface).
  { apply (clean_empty_load (h0, q)); try done. by eapply zlookup_elem_of. }
  assert (v = nil_iface) as -> by congruence.
  exists (h0, q), (h', q'). split_and!; try done.
  - simpl. unfold Empty. apply andb_false_iff.
    rewrite !bool_decide_eq_false. rewrite Hti2, Hto2.
    case_bool_decide; destruct Hsh as [Hho' Hh]; rewrite Hho';
      right; ring_arith.
  - simpl. unfold Size, capacity. rewrite Hti2, Hto2, Hb.
    case_bool_decide as Hfull; destruct Hsh as [Hho' Hh]; rewrite Hho', Hh;
      ring_arith.
Qed.

(** X5. [Reset], after such a run, leaves the empty queue on the blocks it
    had: [Size] is 0, [Empty] holds, every slot of every block is [nil],
    and no block is released. *)
Theorem Reset_empties_and_keeps_blocks (h : Heap) (os : list op) outs l :
  list_run os [] = Some (outs, l) →
  ∃ s s', run_out os (New h) = Some (outs, s) ∧ Reset s = Some s' ∧
          Size s'.2 = 0 ∧ Empty s'.2 = true ∧ blocks s'.2 = blocks s.2 ∧
          ∀ r o, r ∈ blocks s'.2 → 0 ≤ o < blockSize →
                 load s'.1 r o = Some nil_iface.
Proof.
  intros Hl. destruct (reach h os outs l Hl) as (s & Hrun & Hr & _).
  destruct (Reset_repr s l Hr) as (s' & HR & Hr' & Hc' & Hb).
  exists s, s'. split_and!; try done.
  - by rewrite (repr_Size s' [] Hr').
  - apply Empty_iff_Size; [by destruct s', Hr'|]. by rewrite (repr_Size s' [] Hr').
  - intros r o. by apply clean_empty_load.
Qed.

End queue_more.

(** ** Concrete runs of the further properties *)

Lemma queue_refines_list_witness :
  let os := [OpPush (Some 1%nat); OpPush (Some 2%nat); OpFront; OpPop; OpReset;
             OpPush (Some 3%nat); OpPop] in
  let outs := [None; None; Some (Some 1%nat); Some (Some 1%nat); None; None;
               Some (Some 3%nat)] in
  list_run os [] = Some (outs, []) ∧
  ∃ s, run_out os (New []) = Some (outs, s) ∧
       Size s.2 = Z.of_nat (length (@nil (option nat))) ∧
       (Empty s.2 = true ↔ @nil (option nat) = []).
Proof.
  intros os outs. split; [reflexivity|].
  apply (queue_refines_list (A:=nat) [] os outs []). reflexivity.
Defined.

Lemma free_slots_are_nil_witness :
  let os := [OpPush (Some 1%nat); OpPush (Some 2%nat); OpPop] in
  let outs := [None; None; Some (Some 1%nat)] in
  list_run os [] = Some (outs, [Some 2%nat]) ∧
  ∃ s, run_out os (New []) = Some (outs, s) ∧ clean s [Some 2%nat] ∧
       ([Some 2%nat] = [] → ∀ r o, r ∈ blocks s.2 → 0 ≤ o < blockSize →
                                  load s.1 r o = Some nil_iface).
Proof.
  intros os outs. split; [reflexivity|].
  apply (free_slots_are_nil (A:=nat) [] os outs [Some 2%nat]). reflexivity.
Defined.

Lemma Push_grows_only_when_full_witness :
  let os := [OpPush (Some 1%nat); OpPop] in
  let outs := [None; Some (Some 1%nat)] in
  list_run os [] = Some (outs, []) ∧
  ∃ s s', run_out os (New []) = Some (outs, s) ∧
          Push (Some 5%nat) s = Some s' ∧
          headOff s.2 + Z.of_nat (length (@nil (option nat))) < capacity s.2 ∧
          (if bool_decide (headOff s.2 + Z.of_nat (length (@nil (option nat))) + 1
                           = capacity s.2)
           then capacity s'.2 = capacity s.2 + blockSize
           else blocks s'.2 = blocks s.2) ∧
          (∀ r, r ∈ blocks s.2 → r ∈ blocks s'.2) ∧
          (∀ r o, r ∈ blocks s.2 → (r, o) ≠ (tail s.2, tailOff s.2) →
                  load s'.1 r o = load s.1 r o).
Proof.
  intros os outs. split; [reflexivity|].
  apply (Push_grows_only_when_full (A:=nat) [] os outs [] (Some 5%nat)).
  reflexivity.
Defined.

Lemma Pop_on_empty_queue_witness :
  let os := [OpPush (Some 1%nat); OpPop] in
  let outs := [None; Some (Some 1%nat)] in
  list_run os [] = Some (outs, []) ∧
  ∃ s s', run_out os (New []) = Some (outs, s) ∧
          Front s = Some nil_iface ∧ Pop s = Some (nil_iface, s') ∧
          Empty s'.2 = false ∧
          Size s'.2 = (if bool_decide (headOff s.2 + 1 = blockSize)
                       then capacity s.2 - 1 else -1).
Proof.
  intros os outs. split; [reflexivity|].
  apply (Pop_on_empty_queue (A:=nat) [] os outs). reflexivity.
Defined.

Lemma Reset_empties_and_keeps_blocks_witness :
  let os := [OpPush (Some 1%nat); OpPush (Some 2%nat)] in
  let outs := [None; None] in
  list_run os [] = Some (outs, [Some 1%nat; Some 2%nat]) ∧
  ∃ s s', run_out os (New []) = Some (outs, s) ∧ Reset s = Some s' ∧
          Size s'.2 = 0 ∧ Empty s'.2 = true ∧ blocks s'.2 = blocks s.2 ∧
          ∀ r o, r ∈ blocks s'.2 → 0 ≤ o < blockSize →
                 load s'.1 r o = Some nil_iface.
Proof.
  intros os outs. split; [reflexivity|].
  apply (Reset_empties_and_keeps_blocks (A:=nat) [] os outs
           [Some 1%nat; Some 2%nat]).
  reflexivity.
Defined.

End QueueFacts.

Module LinkFacts.
Import Link.

#[local] Abbreviation bytes := (list byte).

(** ** Bytes *)

Lemma byte_xor_involutive (a k : byte) : byte_xor (byte_xor a k) k = a.
Proof.
  unfold byte_xor.
  rewrite <-(Byte.of_bits_to_bits a) at 2.
  destruct (Byte.to_bits a) as (a0 & a1 & a2 & a3 & a4 & a5 & a6 & a7).
  destruct (Byte.to_bits k) as (b0 & b1 & b2 & b3 & b4 & b5 & b6 & b7).
  rewrite Byte.to_bits_of_bits.
  by rewrite !xorb_assoc, !xorb_nilpotent, !xorb_false_r.
Qed.

Lemma equal_scan_true (a : bytes) : ∀ b,
  length a = length b → (equal_scan a b).1 = true ↔ a = b.
Proof.
  induction a as [|x a IH]; intros [|y b] Hlen; simpl in *; try done.
  destruct (Byte.eqb x y) eqn:Hxy.
  - apply Byte.byte_dec_bl in Hxy as ->.
    specialize (IH b ltac:(lia)).
    destruct (equal_scan a b) as [r n]. simpl in *.
    rewrite IH. split; [by intros ->|by intros [= ->]].
  - apply Byte.eqb_false in Hxy. simpl. split; [done|]. intros [= ? ?]. done.
Qed.

Lemma bytes_Equal_true (a b : bytes) : bytes_Equal a b = true ↔ a = b.
Proof.
  unfold bytes_Equal. case_bool_decide as Hlen.
  - by apply equal_scan_true.
  - split; [done|]. intros ->. done.
Qed.

Lemma bytes_Equal_false (a b : bytes) : a ≠ b → bytes_Equal a b = false.
Proof.
  intros Hne. destruct (bytes_Equal a b) eqn:Heq; [|done].
  by apply bytes_Equal_true in Heq.
Qed.

Section link_facts.
Context `{E : Env}.

#[local] Abbreviation Header := (Header HeaderFields OtherMeta).
#[local] Abbreviation Message := (Message HeaderFields OtherMeta).

Implicit Types (l a b : Link) (msg : Message) (msgs : list Message).

(** ** The stream cipher *)

Lemma xor_key_stream_length blk iv (src : bytes) : ∀ p,
  length (xor_key_stream blk iv p src) = length src.
Proof. induction src as [|x src IH]; intros p; simpl; [done|]. by rewrite IH. Qed.

(** Decryption is encryption at the same position of the key stream. *)
Lemma xor_key_stream_involutive blk iv (src : bytes) : ∀ p,
  xor_key_stream blk iv p (xor_key_stream blk iv p src) = src.
Proof.
  induction src as [|x src IH]; intros p; simpl; [done|].
  by rewrite byte_xor_involutive, IH.
Qed.

(** ** SendDirect *)

Lemma SendDirect_unsecured msg l :
  Secure msg = false → Data msg ≠ [] →
  SendDirect msg l = (l, Err "unsecured data, send denied"%string).
Proof.
  intros Hs Hd. unfold SendDirect. rewrite Hs. simpl.
  rewrite bool_decide_eq_true_2; [done|].
  destruct (Data msg); [done|]. simpl. lia.
Qed.

Lemma sendable_guard msg :
  sendable msg →
  negb (Secure msg) && bool_decide (0 < length (Data msg))%nat = false.
Proof.
  intros [Hd|Hs].
  - rewrite Hd. apply andb_false_r.
  - by rewrite Hs.
Qed.

(** A send that returns no error has encoded the header and found the
    transport in order; it leaves the link in the state [sent]. *)
Lemma SendDirect_Ok_inv msg l l' :
  SendDirect msg l = (l', Ok ()) →
  ∃ enc bs, Encode (outCoder l) (Head msg) = (enc, bs, None) ∧
            fault (socket l) = None ∧ sendable msg ∧ l' = sent l msg enc bs.
Proof.
  unfold SendDirect.
  destruct (negb (Secure msg) && _) eqn:Hguard; [done|].
  unfold mbind, M_bind, outCoder_Encode.
  destruct (Encode (outCoder l) (Head msg)) as [[enc bs] [e|]] eqn:Henc; [done|].
  unfold outCipher_XORKeyStream, defer, gets, outMacer_Write, modify, on_socket,
    sock_Send, sock_Flush. simpl.
  destruct (fault (socket l)) as [e|] eqn:Hfault; simpl; [done|].
  intros [= <-]. exists enc, bs. split_and!; [done|done| |].
  2: { unfold sent, header_frame, mac_after. simpl.
       by rewrite <-!app_assoc. }
  apply andb_false_iff in Hguard as [Hs|Hd].
  - right. by apply negb_false_iff.
  - left. apply bool_decide_eq_false in Hd. destruct (Data msg); [done|].
    simpl in Hd. lia.
Qed.

(** Conversely, a sendable message, once encoded, is sent when the
    transport is in order. *)
Lemma SendDirect_sent msg l enc bs :
  sendable msg → Encode (outCoder l) (Head msg) = (enc, bs, None) →
  fault (socket l) = None →
  SendDirect msg l = (sent l msg enc bs, Ok ()).
Proof.
  intros Hs Henc Hfault. unfold SendDirect. rewrite (sendable_guard _ Hs).
  unfold mbind, M_bind, outCoder_Encode. rewrite Henc.
  unfold outCipher_XORKeyStream, defer, gets, outMacer_Write, modify, on_socket,
    sock_Send, sock_Flush. simpl. rewrite Hfault. simpl.
  unfold sent, header_frame, mac_after. simpl. by rewrite <-!app_assoc.
Qed.

(** ** RecvDirect *)

(** What [RecvDirect] does with three frames at hand. *)
Lemma RecvDirect_frames l c d t rest :
  fault (socket l) = None → inbox (socket l) = c :: d :: t :: rest →
  RecvDirect l =
    let sum := mac_Sum (mac_after (inMacer l) c d) in
    if bytes_Equal t sum then
      let '(dec, rem, r) :=
        Decode (inCoder l) (inBuffer l ++ (XORKeyStream (inCipher l) c).2) in
      (decoded l c d t rest dec rem,
       match r with
       | Ok head => Ok {| Head := head; Data := d; secure := true |}
       | Err e => Err e
       end)
    else (verified l c d t rest, Err (mac_mismatch sum t)).
Proof.
  intros Hfault Hinbox. unfold RecvDirect.
  unfold mbind, M_bind, on_socket, sock_Recv, modify, gets, inMacer_Write.
  rewrite Hfault, Hinbox. simpl.
  fold (mac_after (inMacer l) c d).
  destruct (bytes_Equal t _) eqn:Heq; simpl; [|done].
  unfold inCoder_Decode, throw. simpl.
  destruct (Decode _ _) as [[dec rem] [head|e]]; done.
Qed.

(** With a received tag that is not the digest, the message is refused. *)
Lemma RecvDirect_mismatch l c d t rest :
  fault (socket l) = None → inbox (socket l) = c :: d :: t :: rest →
  t ≠ mac_Sum (mac_after (inMacer l) c d) →
  RecvDirect l =
    (verified l c d t rest,
     Err (mac_mismatch (mac_Sum (mac_after (inMacer l) c d)) t)).
Proof.
  intros Hfault Hinbox Hne. rewrite (RecvDirect_frames l c d t rest) by done.
  simpl. by rewrite bytes_Equal_false.
Qed.

(** A receive that returns a message has taken three frames, found the tag
    equal to the digest, and decoded the header from the decrypted frame. *)
Lemma RecvDirect_Ok_inv l l' msg :
  RecvDirect l = (l', Ok msg) →
  ∃ c d t rest dec rem,
    fault (socket l) = None ∧ inbox (socket l) = c :: d :: t :: rest ∧
    t = mac_Sum (mac_after (inMacer l) c d) ∧
    Decode (inCoder l) (inBuffer l ++ (XORKeyStream (inCipher l) c).2)
      = (dec, rem, Ok (Head msg)) ∧
    Data msg = d ∧ secure msg = true ∧ l' = decoded l c d t rest dec rem.
Proof.
  destruct (fault (socket l)) as [e|] eqn:Hfault.
  { unfold RecvDirect, mbind, M_bind, on_socket, sock_Recv.
    by rewrite Hfault. }
  destruct (inbox (socket l)) as [|c [|d [|t rest]]] eqn:Hinbox.
  1-3: unfold RecvDirect, mbind, M_bind, on_socket, sock_Recv, modify;
       rewrite Hfault, Hinbox; simpl; done.
  rewrite (RecvDirect_frames l c d t rest) by done. simpl.
  destruct (bytes_Equal t _) eqn:Heq; [|done].
  apply bytes_Equal_true in Heq.
  destruct (Decode _ _) as [[dec rem] [head|e]] eqn:Hdec; [|done].
  intros [= <- <-]. by exists c, d, t, rest, dec, rem.
Qed.

(** ** The key derivation *)

Lemma ReadFull_inv (hkdf : bytes) n buf rest :
  ReadFull hkdf n = Some (buf, rest) →
  hkdf = buf ++ rest ∧ Z.of_nat (length buf) = n.
Proof.
  unfold ReadFull. case_bool_decide as Hn; [|done]. intros [= <- <-].
  split; [by rewrite take_drop|]. rewrite length_take. lia.
Qed.

Lemma makeHalfDuplex_inv (hkdf : bytes) c m rest :
  makeHalfDuplex hkdf = Some (c, m, rest) →
  ∃ key blk iv salt,
    hkdf = key ++ iv ++ salt ++ rest ∧
    Z.of_nat (length key) = Z.quot SessionCipherBits 8 ∧
    SessionCipher key = Ok blk ∧
    Z.of_nat (length iv) = BlockSize blk ∧
    Z.of_nat (length salt) = HashSize ∧
    c = NewCTR blk iv ∧ m = hmac_New salt.
Proof.
  unfold makeHalfDuplex.
  destruct (ReadFull hkdf _) as [[key hkdf1]|] eqn:Hkey; [|done]. simpl.
  destruct (SessionCipher key) as [blk|e] eqn:Hblk; [|done].
  destruct (ReadFull hkdf1 _) as [[iv hkdf2]|] eqn:Hiv; [|done]. simpl.
  destruct (ReadFull hkdf2 _) as [[salt hkdf3]|] eqn:Hsalt; [|done]. simpl.
  intros [= <- <- <-].
  apply ReadFull_inv in Hkey as [-> Hk], Hiv as [-> Hi], Hsalt as [-> Hs].
  by exists key, blk, iv, salt.
Qed.

Lemma New_inv conn (hkdf : bytes) (server : bool) l rest :
  New conn hkdf server = Some (l, rest) →
  ∃ sc sm hkdf1 cc cm,
    makeHalfDuplex hkdf = Some (sc, sm, hkdf1) ∧
    makeHalfDuplex hkdf1 = Some (cc, cm, rest) ∧
    l = {| socket := conn;
           inCipher := if server then cc else sc;
           outCipher := if server then sc else cc;
           inMacer := if server then cm else sm;
           outMacer := if server then sm else cm;
           inBuffer := []; outBuffer := [];
           inCoder := NewDecoder; outCoder := NewEncoder;
           inHeadBuf := []; inMacBuf := [] |}.
Proof.
  unfold New.
  destruct (makeHalfDuplex hkdf) as [[[sc sm] hkdf1]|] eqn:H1; [|done]. simpl.
  destruct (makeHalfDuplex hkdf1) as [[[cc cm] hkdf2]|] eqn:H2; [|done]. simpl.
  destruct server; intros [= <- <-]; by exists sc, sm, hkdf1, cc, cm.
Qed.

(** ** The MAC state *)

Lemma mac_Write_nil (m : Macer) : mac_Write m [] = m.
Proof. destruct m as [k w]. unfold mac_Write. simpl. by rewrite app_nil_r. Qed.

Lemma mac_Write_app (m : Macer) (p q : bytes) :
  mac_Write (mac_Write m p) q = mac_Write m (p ++ q).
Proof. unfold mac_Write. simpl. by rewrite app_assoc. Qed.

Lemma mac_after_Write (m : Macer) (c d : bytes) :
  mac_after m c d = mac_Write m (c ++ d).
Proof. apply mac_Write_app. Qed.

Lemma mac_Sum_after (m : Macer) (c d : bytes) :
  mac_Sum (mac_after m c d) = hmac_digest (salt m) (written m ++ c ++ d).
Proof. unfold mac_Sum, mac_after, mac_Write. simpl. by rewrite app_assoc. Qed.

(** Whatever [SendDirect] returns, it has only written to the outbound
    MAC. *)
Lemma SendDirect_mac msg l :
  ∃ p, outMacer (SendDirect msg l).1 = mac_Write (outMacer l) p ∧
       inMacer (SendDirect msg l).1 = inMacer l.
Proof.
  unfold SendDirect.
  destruct (negb (Secure msg) && _).
  { exists []. by rewrite mac_Write_nil. }
  unfold mbind, M_bind, outCoder_Encode.
  destruct (Encode (outCoder l) (Head msg)) as [[enc bs] [e|]].
  { exists []. by rewrite mac_Write_nil. }
  unfold outCipher_XORKeyStream, defer, gets, outMacer_Write, modify, on_socket,
    sock_Send, sock_Flush. simpl.
  destruct (fault (socket l)) as [e|]; simpl.
  all: eexists; split; [apply mac_Write_app|done].
Qed.

(** Whatever [RecvDirect] returns, it has only written to the inbound
    MAC. *)
Lemma RecvDirect_mac l :
  ∃ p, inMacer (RecvDirect l).1 = mac_Write (inMacer l) p ∧
       outMacer (RecvDirect l).1 = outMacer l.
Proof.
  destruct (fault (socket l)) as [e|] eqn:Hfault.
  { unfold RecvDirect, mbind, M_bind, on_socket, sock_Recv.
    rewrite Hfault. exists []. by rewrite mac_Write_nil. }
  destruct (inbox (socket l)) as [|c [|d [|t rest]]] eqn:Hinbox.
  1-3: unfold RecvDirect, mbind, M_bind, on_socket, sock_Recv, modify;
       rewrite Hfault, Hinbox; simpl; exists []; by rewrite mac_Write_nil.
  rewrite (RecvDirect_frames l c d t rest) by done. simpl.
  exists (c ++ d). rewrite <-mac_after_Write.
  destruct (bytes_Equal t _); [|done].
  by destruct (Decode _ _) as [[dec rem] r].
Qed.

(** ** Runs of sends *)

Lemma sendAll_cons_Ok msg msgs l l' :
  sendAll (msg :: msgs) l = (l', Ok ()) →
  ∃ l1, SendDirect msg l = (l1, Ok ()) ∧ sendAll msgs l1 = (l', Ok ()).
Proof.
  simpl. unfold mbind, M_bind.
  destruct (SendDirect msg l) as [l1 [[]|e]] eqn:Hsend; [|done]. eauto.
Qed.

Lemma frames_since_app (a a' : Link) (fs : list bytes) :
  out (socket a') = out (socket a) ++ fs → frames_since a a' = fs.
Proof. intros Hout. unfold frames_since. by rewrite Hout, drop_app_length. Qed.

Lemma sent_out l msg enc bs :
  out (socket (sent l msg enc bs)) =
    out (socket l) ++ [header_frame l bs; Data msg;
                       mac_Sum (mac_after (outMacer l) (header_frame l bs) (Data msg))].
Proof. done. Qed.

(** The frames of a run of sends, their tags and the MAC state. *)
Lemma sendAll_chain msgs : ∀ l l',
  sendAll msgs l = (l', Ok ()) →
  ∃ fs, out (socket l') = out (socket l) ++ fs ∧
        length fs = (3 * length msgs)%nat ∧
        tags_chain (salt (outMacer l)) (written (outMacer l)) fs ∧
        outMacer l' = mac_Write (outMacer l) (mac_input fs) ∧
        (msgs ≠ [] ∨ outBuffer l = [] → outBuffer l' = []).
Proof.
  induction msgs as [|msg msgs IH]; intros l l' Hrun.
  - injection Hrun as <-. exists []. rewrite app_nil_r, mac_Write_nil.
    split_and!; try done. by intros [?|?].
  - apply sendAll_cons_Ok in Hrun as (l1 & Hsend & Hrun).
    apply SendDirect_Ok_inv in Hsend as (enc & bs & Henc & Hfault & Hs & ->).
    destruct (IH _ _ Hrun) as (fs & Hout & Hlen & Hchain & Hmac & Hbuf).
    set (c := header_frame l bs) in *.
    exists ([c; Data msg; mac_Sum (mac_after (outMacer l) c (Data msg))] ++ fs).
    split_and!.
    + rewrite Hout, sent_out. by rewrite <-app_assoc.
    + rewrite length_app, Hlen. simpl. lia.
    + simpl. split; [apply mac_Sum_after|].
      simpl in Hchain. by rewrite <-app_assoc in Hchain.
    + rewrite Hmac. simpl. rewrite mac_after_Write, mac_Write_app.
      by rewrite <-app_assoc.
    + intros _. apply Hbuf. by right.
Qed.

Lemma sendAll_app msgs1 msgs2 : ∀ l,
  sendAll (msgs1 ++ msgs2) l =
    match sendAll msgs1 l with
    | (l1, Ok _) => sendAll msgs2 l1
    | (l1, Err e) => (l1, Err e)
    end.
Proof.
  induction msgs1 as [|msg msgs1 IH]; intros l; [done|].
  simpl. unfold mbind, M_bind.
  destruct (SendDirect msg l) as [l1 [[]|e]]; [|done]. apply IH.
Qed.

Lemma flush_sendAll pending : ∀ l, flush pending l = sendAll pending l.
Proof.
  induction pending as [|msg pending IH]; intros l; [done|].
  simpl. unfold mbind, M_bind.
  destruct (SendDirect msg l) as [l1 [[]|e]]; [|done]. apply IH.
Qed.

(** ** Runs of receives *)

Lemma recvAll_S_Ok n l l' msgs :
  recvAll (S n) l = (l', Ok msgs) →
  ∃ l1 msg msgs', RecvDirect l = (l1, Ok msg) ∧
                  recvAll n l1 = (l', Ok msgs') ∧ msgs = msg :: msgs'.
Proof.
  simpl. unfold mbind, M_bind.
  destruct (RecvDirect l) as [l1 [msg|e]] eqn:Hrecv; [|done].
  destruct (recvAll n l1) as [l2 [msgs'|e]] eqn:Hrun; [|done].
  intros [= <- <-]. by exists l1, msg, msgs'.
Qed.

(** The frames of a run of receives, their tags and the MAC state. *)
Lemma recvAll_chain n : ∀ l l' msgs,
  recvAll n l = (l', Ok msgs) →
  ∃ fs, inbox (socket l) = fs ++ inbox (socket l') ∧
        length fs = (3 * n)%nat ∧
        tags_chain (salt (inMacer l)) (written (inMacer l)) fs ∧
        inMacer l' = mac_Write (inMacer l) (mac_input fs).
Proof.
  induction n as [|n IH]; intros l l' msgs Hrun.
  - injection Hrun as <- <-. exists []. by rewrite mac_Write_nil.
  - apply recvAll_S_Ok in Hrun as (l1 & msg & msgs' & Hrecv & Hrun & ->).
    apply RecvDirect_Ok_inv in Hrecv
      as (c & d & t & rest & dec & rem & Hf & Hin & Ht & _ & _ & _ & ->).
    destruct (IH _ _ _ Hrun) as (fs & Hin' & Hlen & Hchain & Hmac).
    simpl in Hin', Hchain, Hmac.
    exists ([c; d; t] ++ fs). split_and!.
    + rewrite Hin, Hin'. done.
    + rewrite length_app, Hlen. simpl. lia.
    + simpl. split; [by rewrite Ht, mac_Sum_after|].
      by rewrite <-app_assoc in Hchain.
    + rewrite Hmac. simpl. rewrite mac_after_Write, mac_Write_app.
      by rewrite <-app_assoc.
Qed.

(** A run of sendable messages is sent when the transport is in order and
    the encoder accepts the headers. *)
Lemma sendAll_sendable_Ok msgs : ∀ l,
  Forall sendable msgs → fault (socket l) = None →
  (∀ enc head, ∃ enc' bs, Encode enc head = (enc', bs, None)) →
  ∃ l', sendAll msgs l = (l', Ok ()) ∧ fault (socket l') = None.
Proof.
  induction msgs as [|msg msgs IH]; intros l Hs Hfault Henc; [by exists l|].
  apply Forall_cons in Hs as [Hmsg Hs].
  destruct (Henc (outCoder l) (Head msg)) as (enc & bs & Hencode).
  simpl. unfold mbind, M_bind.
  rewrite (SendDirect_sent msg l enc bs Hmsg Hencode Hfault).
  by apply IH.
Qed.

(** ** The properties of the link *)

(** C2. A message with a payload and without the secure flag is refused
    with the error [unsecured data, send denied], and the transport is as
    it was before the call: no frame has been enqueued or committed. *)
Theorem unsecured_send_denied msg l :
  Secure msg = false → Data msg ≠ [] →
  (SendDirect msg l).2 = Err "unsecured data, send denied"%string ∧
  socket (SendDirect msg l).1 = socket l.
Proof. intros Hs Hd. by rewrite SendDirect_unsecured. Qed.

(** C10. The refusal of an unsecured message changes nothing in the link:
    the outbound cipher stream, the outbound MAC state and the scratch
    buffer are as before, and so is the rest, so that every later send
    behaves as if the refused call had not been made. *)
Theorem unsecured_refusal_is_atomic msg l :
  Secure msg = false → Data msg ≠ [] →
  let l' := (SendDirect msg l).1 in
  outCipher l' = outCipher l ∧ outMacer l' = outMacer l ∧
  outBuffer l' = outBuffer l ∧ l' = l ∧
  ∀ msg', SendDirect msg' l' = SendDirect msg' l.
Proof. intros Hs Hd. by rewrite SendDirect_unsecured. Qed.

(** C5. [New] reads two triples of key, IV and MAC salt from the
    key-derivation stream, one after the other, and nothing else; the pair
    of cipher stream and MAC made of the first triple is the outbound one
    of the server and the inbound one of the client, the pair made of the
    second is the other one.  Hence, of two links made of the same stream
    with opposite roles, the inbound state of each is the outbound state of
    the other. *)
Theorem New_assigns_halves_by_role conn (hkdf : bytes) (server : bool) l rest :
  New conn hkdf server = Some (l, rest) →
  (∃ key1 blk1 iv1 salt1 key2 blk2 iv2 salt2,
     hkdf = (key1 ++ iv1 ++ salt1) ++ (key2 ++ iv2 ++ salt2) ++ rest ∧
     Z.of_nat (length key1) = Z.quot SessionCipherBits 8 ∧
     Z.of_nat (length key2) = Z.quot SessionCipherBits 8 ∧
     SessionCipher key1 = Ok blk1 ∧ SessionCipher key2 = Ok blk2 ∧
     Z.of_nat (length iv1) = BlockSize blk1 ∧
     Z.of_nat (length iv2) = BlockSize blk2 ∧
     Z.of_nat (length salt1) = HashSize ∧ Z.of_nat (length salt2) = HashSize ∧
     let first := (NewCTR blk1 iv1, hmac_New salt1) in
     let second := (NewCTR blk2 iv2, hmac_New salt2) in
     (outCipher l, outMacer l) = (if server then first else second) ∧
     (inCipher l, inMacer l) = (if server then second else first)) ∧
  ∀ conn' l' rest',
    New conn' hkdf (negb server) = Some (l', rest') →
    inCipher l = outCipher l' ∧ inMacer l = outMacer l' ∧
    outCipher l = inCipher l' ∧ outMacer l = inMacer l' ∧ rest' = rest.
Proof.
  intros (sc & sm & hkdf1 & cc & cm & H1 & H2 & ->)%New_inv. split.
  - apply makeHalfDuplex_inv in H1
      as (key1 & blk1 & iv1 & salt1 & -> & ? & ? & ? & ? & -> & ->).
    apply makeHalfDuplex_inv in H2
      as (key2 & blk2 & iv2 & salt2 & -> & ? & ? & ? & ? & -> & ->).
    exists key1, blk1, iv1, salt1, key2, blk2, iv2, salt2.
    split_and!; try done.
    { by rewrite <-!app_assoc. }
    simpl. by destruct server.
  - intros conn' l' rest' (sc' & sm' & hkdf1' & cc' & cm' & H1' & H2' & ->)%New_inv.
    rewrite H1 in H1'. injection H1' as <- <- <-.
    rewrite H2 in H2'. injection H2' as <- <- <-.
    by destruct server.
Qed.

(** C4, as the code has it. With a received tag that is not the digest of
    the inbound MAC, [RecvDirect] returns no message and the error
    [mac mismatch: have D, want T.], where [D] is the digest and [T] the
    received tag, both printed as [%v] prints a byte slice; the two are
    compared by [bytes.Equal], which holds exactly when they are the same
    bytes. *)
Theorem mac_mismatch_is_refused l c d t rest :
  fault (socket l) = None → inbox (socket l) = c :: d :: t :: rest →
  let digest := hmac_digest (salt (inMacer l)) (written (inMacer l) ++ c ++ d) in
  t ≠ digest →
  bytes_Equal t digest = false ∧
  (RecvDirect l).2 =
    Err ("mac mismatch: have " ++ fmt_bytes digest ++ ", want "
           ++ fmt_bytes t ++ ".")%string.
Proof.
  intros Hfault Hinbox digest Hne. subst digest.
  split; [by apply bytes_Equal_false|].
  rewrite <-mac_Sum_after in *.
  by rewrite (RecvDirect_mismatch l c d t rest).
Qed.

(** C3. The MAC states are written to and never reset.  In a run of sends
    the tag of each message is the digest of what the outbound MAC had been
    given before the run followed by the header frames and the payloads of
    the run up to that message; in a run of receives the tag accepted for
    each message is that digest of the inbound MAC.  The scratch buffer is
    empty after a send; whatever [SendDirect] and [RecvDirect] return, the
    MAC of their direction holds what it held, followed by what they wrote,
    and the other MAC is as it was. *)
Theorem mac_state_chains_messages msgs l l' n r r' msgs' :
  sendAll msgs l = (l', Ok ()) →
  recvAll n r = (r', Ok msgs') →
  let sent_frames := frames_since l l' in
  (out (socket l') = out (socket l) ++ sent_frames ∧
   length sent_frames = (3 * length msgs)%nat ∧
   tags_chain (salt (outMacer l)) (written (outMacer l)) sent_frames ∧
   outMacer l' = mac_Write (outMacer l) (mac_input sent_frames) ∧
   (msgs ≠ [] → outBuffer l' = [])) ∧
  (∃ fs, inbox (socket r) = fs ++ inbox (socket r') ∧
         length fs = (3 * n)%nat ∧
         tags_chain (salt (inMacer r)) (written (inMacer r)) fs ∧
         inMacer r' = mac_Write (inMacer r) (mac_input fs)) ∧
  (∀ msg l0, ∃ p, outMacer (SendDirect msg l0).1 = mac_Write (outMacer l0) p ∧
                  inMacer (SendDirect msg l0).1 = inMacer l0) ∧
  (∀ l0, ∃ p, inMacer (RecvDirect l0).1 = mac_Write (inMacer l0) p ∧
              outMacer (RecvDirect l0).1 = outMacer l0).
Proof.
  intros Hsend Hrecv sent_frames.
  destruct (sendAll_chain _ _ _ Hsend) as (fs & Hout & Hlen & Hchain & Hmac & Hbuf).
  assert (sent_frames = fs) as -> by (by apply frames_since_app).
  split_and!; try done.
  - intros Hne. apply Hbuf. by left.
  - by eapply recvAll_chain.
  - apply SendDirect_mac.
  - apply RecvDirect_mac.
Qed.

(** C6. Once the sender has taken the shutdown request with no error so
    far, it does what the sends of the pending messages in channel order,
    followed by the send of a message with the close packet as [Meta] and
    no payload, do; when it reports no error, all of them have been sent,
    three frames each, the frames of the close message last. *)
Theorem sender_flushes_then_closes taken pending l l1 :
  serve taken l = (l1, Ok ()) →
  sender taken pending l = sendAll (pending ++ [closeMessage]) l1 ∧
  Meta (Head closeMessage) = closePacket ∧ Data closeMessage = [] ∧
  ∀ l', sender taken pending l = (l', Ok ()) →
    ∃ l2 c t,
      sendAll pending l1 = (l2, Ok ()) ∧
      SendDirect closeMessage l2 = (l', Ok ()) ∧
      length (frames_since l1 l2) = (3 * length pending)%nat ∧
      frames_since l1 l' = frames_since l1 l2 ++ [c; []; t] ∧
      out (socket l') = out (socket l1) ++ frames_since l1 l'.
Proof.
  intros Hserve.
  assert (Heq : sender taken pending l = sendAll (pending ++ [closeMessage]) l1).
  { unfold sender. rewrite Hserve. unfold mbind, M_bind.
    rewrite flush_sendAll, sendAll_app.
    destruct (sendAll pending l1) as [l2 [[]|e]]; [|done].
    simpl. unfold mbind, M_bind.
    by destruct (SendDirect closeMessage l2) as [l3 [[]|e]]. }
  split_and!; try done.
  intros l' Hok. rewrite Heq, sendAll_app in Hok.
  destruct (sendAll pending l1) as [l2 [[]|e]] eqn:Hpend; [|done].
  apply sendAll_cons_Ok in Hok as (l3 & Hclose & [= <-]).
  destruct (sendAll_chain _ _ _ Hpend) as (fs & Hout & Hlen & _).
  pose proof Hclose as Hclose'.
  apply SendDirect_Ok_inv in Hclose' as (enc & bs & _ & _ & _ & ->).
  exists l2, (header_frame l2 bs),
    (mac_Sum (mac_after (outMacer l2) (header_frame l2 bs) [])).
  rewrite (frames_since_app _ _ _ Hout).
  assert (Hout' : out (socket (sent l2 closeMessage enc bs)) =
                  out (socket l1) ++ fs ++ [header_frame l2 bs; [];
                    mac_Sum (mac_after (outMacer l2) (header_frame l2 bs) [])]).
  { rewrite sent_out, Hout. by rewrite <-app_assoc. }
  rewrite (frames_since_app _ _ _ Hout'). by split_and!.
Qed.

End link_facts.

Section round_trip.
Context `{C : PairedCodec}.

#[local] Abbreviation Message := (Message HeaderFields OtherMeta).

Implicit Types (a b : Link) (msg : Message) (msgs : list Message).

(** Two links made of one key-derivation stream with opposite roles are in
    step, in both directions. *)
Lemma New_synced conn conn' (hkdf : bytes) (server : bool) a b rest rest' :
  New conn hkdf server = Some (a, rest) →
  New conn' hkdf (negb server) = Some (b, rest') →
  synced a b ∧ synced b a.
Proof.
  intros (sc & sm & hkdf1 & cc & cm & H1 & H2 & ->)%New_inv.
  intros (sc' & sm' & hkdf1' & cc' & cm' & H1' & H2' & ->)%New_inv.
  rewrite H1 in H1'. injection H1' as <- <- <-.
  rewrite H2 in H2'. injection H2' as <- <- <-.
  unfold synced. simpl. destruct server; simpl; split_and!; try done.
  all: apply paired_New.
Qed.

(** One message: what is sent is received. *)
Lemma round_trip_one a b msg a' rest :
  synced a b → SendDirect msg a = (a', Ok ()) →
  fault (socket b) = None → inbox (socket b) = frames_since a a' ++ rest →
  ∃ b' msg', RecvDirect b = (b', Ok msg') ∧
             Head msg' = Head msg ∧ Data msg' = Data msg ∧ secure msg' = true ∧
             synced a' b' ∧ fault (socket b') = None ∧ inbox (socket b') = rest.
Proof.
  intros (Hc & Hm & Hp & Hob & Hib) Hsend Hfault Hinbox.
  apply SendDirect_Ok_inv in Hsend as (enc & bs & Henc & _ & _ & ->).
  rewrite (frames_since_app _ _ _ (sent_out a msg enc bs)) in Hinbox.
  simpl in Hinbox.
  destruct (paired_Encode_Decode _ _ _ _ _ Hp Henc) as (dec' & Hdec & Hp').
  rewrite (RecvDirect_frames b _ _ _ rest Hfault Hinbox). simpl.
  rewrite <-Hm, (proj2 (bytes_Equal_true _ _) eq_refl).
  unfold header_frame. simpl. rewrite Hob, Hib, <-Hc. simpl.
  rewrite xor_key_stream_involutive, Hdec.
  eexists _, _. split; [done|]. simpl. split_and!; try done.
  unfold synced, decoded, sent, header_frame. simpl.
  rewrite Hob, <-Hc, <-Hm. simpl.
  by rewrite xor_key_stream_length.
Qed.

(** A run of messages: they are received in the order of the sends. *)
Lemma round_trip_all msgs : ∀ a b a' rest,
  synced a b → sendAll msgs a = (a', Ok ()) →
  fault (socket b) = None → inbox (socket b) = frames_since a a' ++ rest →
  ∃ b' msgs', recvAll (length msgs) b = (b', Ok msgs') ∧
              Head <$> msgs' = Head <$> msgs ∧
              Data <$> msgs' = Data <$> msgs ∧
              Forall (λ msg', secure msg' = true) msgs' ∧
              synced a' b' ∧ fault (socket b') = None ∧
              inbox (socket b') = rest.
Proof.
  induction msgs as [|msg msgs IH]; intros a b a' rest Hsync Hsend Hfault Hinbox.
  - injection Hsend as <-. exists b, []. simpl. split_and!; try done.
    unfold frames_since in Hinbox. by rewrite drop_all in Hinbox.
  - apply sendAll_cons_Ok in Hsend as (a1 & Hsend & Hrun).
    destruct (sendAll_chain _ _ _ Hrun) as (fs & Hout & _).
    pose proof Hsend as Hsend'.
    apply SendDirect_Ok_inv in Hsend' as (enc & bs & _ & _ & _ & ->).
    assert (Hsplit : frames_since a a' =
              frames_since a (sent a msg enc bs) ++ frames_since (sent a msg enc bs) a').
    { rewrite (frames_since_app _ _ _ (sent_out a msg enc bs)).
      rewrite (frames_since_app _ _ _ Hout).
      apply frames_since_app. rewrite Hout, sent_out. by rewrite <-app_assoc. }
    rewrite Hsplit, <-app_assoc in Hinbox.
    destruct (round_trip_one _ _ _ _ _ Hsync Hsend Hfault Hinbox)
      as (b1 & msg' & Hrecv & Hh & Hd & Hs & Hsync1 & Hfault1 & Hinbox1).
    destruct (IH _ _ _ _ Hsync1 Hrun Hfault1 Hinbox1)
      as (b' & msgs' & Hrecvs & Hhs & Hds & Hss & Hsync' & Hfault' & Hinbox').
    exists b', (msg' :: msgs'). split_and!; try done.
    + simpl. unfold mbind, M_bind. by rewrite Hrecv, Hrecvs.
    + rewrite !fmap_cons. congruence.
    + rewrite !fmap_cons. congruence.
    + by constructor.
Qed.

(** C1. Let the outbound half of [a] and the inbound half of [b] be in
    step, as they are for two links made by [New] of one key-derivation
    stream with opposite roles ([New_synced]).  The messages that
    [SendDirect] sends from [a], each with no payload or a secure one, are
    returned by as many calls of [RecvDirect] on [b], which finds the
    frames committed by [a]: in the order of the sends, with the same
    header and the same payload, marked secure; the two halves end in
    step. *)
Theorem send_recv_round_trip a b msgs a' rest :
  synced a b → sendAll msgs a = (a', Ok ()) →
  fault (socket b) = None → inbox (socket b) = frames_since a a' ++ rest →
  Forall sendable msgs ∧
  ∃ b' msgs', recvAll (length msgs) b = (b', Ok msgs') ∧
              Head <$> msgs' = Head <$> msgs ∧
              Data <$> msgs' = Data <$> msgs ∧
              Forall (λ msg', secure msg' = true) msgs' ∧
              synced a' b' ∧ inbox (socket b') = rest.
Proof.
  intros Hsync Hsend Hfault Hinbox. split.
  - clear Hsync Hinbox. revert a Hsend.
    induction msgs as [|msg msgs IH]; intros a Hsend; [constructor|].
    apply sendAll_cons_Ok in Hsend as (a1 & Hsend & Hrun).
    apply SendDirect_Ok_inv in Hsend as (enc & bs & _ & _ & Hs & ->).
    constructor; [done|]. by eapply IH.
  - destruct (round_trip_all _ _ _ _ _ Hsync Hsend Hfault Hinbox)
      as (b' & msgs' & ? & ? & ? & ? & ? & ? & ?).
    by exists b', msgs'.
Qed.

End round_trip.

Section link_more.
Context `{E : Env}.

#[local] Abbreviation Message := (Message HeaderFields OtherMeta).

Implicit Types (l a b : Link) (msg : Message) (msgs : list Message).

(** ** The sender worker as a run of sends *)

Lemma serve_sendAll taken : ∀ l, serve taken l = sendAll taken l.
Proof.
  induction taken as [|msg taken IH]; intros l; [done|].
  simpl. unfold mbind, M_bind.
  destruct (SendDirect msg l) as [l1 [[]|e]]; [|done]. apply IH.
Qed.

Lemma sender_sendAll taken pending l :
  sender taken pending l = sendAll (taken ++ pending ++ [closeMessage]) l.
Proof.
  unfold sender. rewrite serve_sendAll, sendAll_app.
  destruct (sendAll taken l) as [l1 r]. destruct r as [[]|e]; [|done].
  unfold mbind, M_bind. rewrite flush_sendAll, sendAll_app.
  destruct (sendAll pending l1) as [l2 r]. destruct r as [[]|e]; [|done].
  simpl. unfold mbind, M_bind.
  destruct (SendDirect closeMessage l2) as [l3 r]. by destruct r as [[]|e].
Qed.

(** X10. An unsecured message with a payload, anywhere among the messages that
    the sender worker takes from [l.Send], ends the worker: the messages
    before it have been sent, nothing is sent after them, the close message
    neither, and the worker reports [unsecured data, send denied]. *)
Theorem sender_stops_at_unsecured taken pending pre bad post l l1 :
  taken ++ pending = pre ++ bad :: post →
  sendAll pre l = (l1, Ok ()) →
  Secure bad = false → Data bad ≠ [] →
  sender taken pending l = (l1, Err "unsecured data, send denied"%string) ∧
  length (frames_since l l1) = (3 * length pre)%nat ∧
  out (socket l1) = out (socket l) ++ frames_since l l1.
Proof.
  intros Hsplit Hpre Hs Hd. split.
  - rewrite sender_sendAll, app_assoc, Hsplit, <-app_assoc, sendAll_app, Hpre.
    simpl. unfold mbind, M_bind. by rewrite SendDirect_unsecured.
  - destruct (sendAll_chain _ _ _ Hpre) as (fs & Hout & Hlen & _).
    by rewrite (frames_since_app _ _ _ Hout).
Qed.

(** ** Failures of [SendDirect] *)

(** X7. A send that the transport fails is not undone: the error of the
    transport is returned and no frame has been enqueued, but the outbound
    cipher stream has moved on by the length of the header, the outbound
    MAC holds the header frame and the payload, and the coder has moved on.
    The refusal of an unsecured message is the one failure that leaves the
    link as it was. *)
Theorem failed_send_is_not_undone msg l enc bs e :
  sendable msg → Encode (outCoder l) (Head msg) = (enc, bs, None) →
  fault (socket l) = Some e →
  let l' := (SendDirect msg l).1 in
  (SendDirect msg l).2 = Err e ∧ socket l' = socket l ∧
  outCipher l' = (XORKeyStream (outCipher l) (outBuffer l ++ bs)).1 ∧
  Z.of_nat (pos (outCipher l')) =
    Z.of_nat (pos (outCipher l)) + Z.of_nat (length (outBuffer l ++ bs)) ∧
  outMacer l' = mac_after (outMacer l) (header_frame l bs) (Data msg) ∧
  outCoder l' = enc ∧ outBuffer l' = [].
Proof.
  intros Hs Henc Hfault. unfold SendDirect. rewrite (sendable_guard _ Hs).
  unfold mbind, M_bind, outCoder_Encode. rewrite Henc.
  unfold outCipher_XORKeyStream, defer, gets, outMacer_Write, modify, on_socket,
    sock_Send, sock_Flush. simpl. rewrite Hfault. simpl.
  split_and!; try done. lia.
Qed.

(** X8. When the encoder fails, [SendDirect] returns its error before the
    reset of the scratch buffer is deferred: nothing is sent, the cipher
    stream and the MAC are as before, but what the encoder has written stays
    in the buffer, and the header frame of the next message sent starts
    with it. *)
Theorem encode_failure_taints_next_header msg l enc bs e msg' l'' :
  sendable msg → Encode (outCoder l) (Head msg) = (enc, bs, Some e) →
  let l' := (SendDirect msg l).1 in
  SendDirect msg' l' = (l'', Ok ()) →
  (SendDirect msg l).2 = Err e ∧ socket l' = socket l ∧
  outCipher l' = outCipher l ∧ outMacer l' = outMacer l ∧
  outBuffer l' = outBuffer l ++ bs ∧
  ∃ enc' bs',
    Encode enc (Head msg') = (enc', bs', None) ∧
    frames_since l' l'' !! 0%nat =
      Some (XORKeyStream (outCipher l) (outBuffer l ++ bs ++ bs')).2.
Proof.
  intros Hs Henc l' Hnext.
  assert (Hl' : SendDirect msg l =
                (set_outBuffer (outBuffer l ++ bs) (set_outCoder enc l), Err e)).
  { unfold SendDirect. rewrite (sendable_guard _ Hs).
    unfold mbind, M_bind, outCoder_Encode. by rewrite Henc. }
  subst l'. rewrite Hl' in *. simpl in *.
  split_and!; try done.
  apply SendDirect_Ok_inv in Hnext as (enc' & bs' & Henc' & _ & _ & ->).
  exists enc', bs'. split; [done|].
  rewrite (frames_since_app _ _ _ (sent_out _ _ _ _)). simpl.
  unfold header_frame. simpl. by rewrite <-app_assoc.
Qed.

(** ** Failures of [RecvDirect] *)

(** X9. When the transport fails, or ends before the three frames of a
    message have come, [RecvDirect] returns an error and has touched
    neither the inbound cipher stream, nor the inbound MAC, nor the
    decoder and its buffer. *)
Theorem recv_failure_keeps_crypto_state l :
  fault (socket l) ≠ None ∨ (length (inbox (socket l)) < 3)%nat →
  let l' := (RecvDirect l).1 in
  (∃ e, (RecvDirect l).2 = Err e) ∧
  inCipher l' = inCipher l ∧ inMacer l' = inMacer l ∧
  inCoder l' = inCoder l ∧ inBuffer l' = inBuffer l ∧
  outCipher l' = outCipher l ∧ outMacer l' = outMacer l.
Proof.
  intros Hfail.
  destruct (fault (socket l)) as [e|] eqn:Hfault.
  { unfold RecvDirect, mbind, M_bind, on_socket, sock_Recv.
    rewrite Hfault. simpl. split_and!; try done. by exists e. }
  destruct Hfail as [?|Hshort]; [done|].
  destruct (inbox (socket l)) as [|c [|d [|t rest]]] eqn:Hinbox;
    [| | |simpl in Hshort; lia].
  all: unfold RecvDirect, mbind, M_bind, on_socket, sock_Recv, modify;
       rewrite Hfault, Hinbox; simpl; split_and!; try done; by eexists.
Qed.

(** ** The length of the key-derivation stream *)

Lemma ReadFull_Some (hkdf : bytes) n :
  0 ≤ n ≤ Z.of_nat (length hkdf) →
  ∃ buf rest, ReadFull hkdf n = Some (buf, rest) ∧
              Z.of_nat (length buf) = n ∧
              Z.of_nat (length rest) = Z.of_nat (length hkdf) - n.
Proof.
  intros Hn. unfold ReadFull. rewrite bool_decide_eq_true_2 by done.
  eexists _, _. split; [done|]. rewrite length_take, length_drop. lia.
Qed.

Lemma makeHalfDuplex_Some (hkdf : bytes) K B :
  Z.quot SessionCipherBits 8 = K → 0 ≤ K → 0 ≤ B → 0 ≤ HashSize →
  (∀ key, Z.of_nat (length key) = K →
          ∃ blk, SessionCipher key = Ok blk ∧ BlockSize blk = B) →
  K + B + HashSize ≤ Z.of_nat (length hkdf) →
  ∃ c m rest, makeHalfDuplex hkdf = Some (c, m, rest) ∧
              Z.of_nat (length rest) = Z.of_nat (length hkdf) - (K + B + HashSize).
Proof.
  intros HK HK0 HB0 HH0 Hcipher Hlen. unfold makeHalfDuplex. rewrite HK.
  destruct (ReadFull_Some hkdf K) as (key & r1 & -> & Hkey & Hr1); [lia|].
  simpl. destruct (Hcipher key Hkey) as (blk & -> & HB). rewrite HB.
  destruct (ReadFull_Some r1 B) as (iv & r2 & -> & Hiv & Hr2); [lia|].
  simpl. destruct (ReadFull_Some r2 HashSize) as (slt & r3 & -> & Hslt & Hr3); [lia|].
  simpl. eexists _, _, _. split; [done|]. lia.
Qed.

Lemma makeHalfDuplex_length (hkdf : bytes) K B c m rest :
  Z.quot SessionCipherBits 8 = K →
  (∀ key blk, SessionCipher key = Ok blk → BlockSize blk = B) →
  makeHalfDuplex hkdf = Some (c, m, rest) →
  Z.of_nat (length hkdf) = K + B + HashSize + Z.of_nat (length rest).
Proof.
  intros HK HB (key & blk & iv & slt & -> & Hkey & Hblk & Hiv & Hslt & _)%makeHalfDuplex_inv.
  rewrite !length_app. rewrite (HB _ _ Hblk) in Hiv. lia.
Qed.

(** X6. With a session cipher that takes every key of [K] bytes and has
    blocks of [B] bytes, [New] returns a link exactly when the
    key-derivation stream yields twice [K + B + H] bytes, [H] being the
    size of the digest; it reads that many and no more, whatever the role.
    On a shorter stream it panics. *)
Theorem New_needs_two_triples conn (hkdf : bytes) (server : bool) K B :
  Z.quot SessionCipherBits 8 = K → 0 ≤ K → 0 ≤ B → 0 ≤ HashSize →
  (∀ key, Z.of_nat (length key) = K →
          ∃ blk, SessionCipher key = Ok blk ∧ BlockSize blk = B) →
  (∀ key blk, SessionCipher key = Ok blk → BlockSize blk = B) →
  (is_Some (New conn hkdf server) ↔
     2 * (K + B + HashSize) ≤ Z.of_nat (length hkdf)) ∧
  ∀ l rest, New conn hkdf server = Some (l, rest) →
    Z.of_nat (length rest) =
      Z.of_nat (length hkdf) - 2 * (K + B + HashSize).
Proof.
  intros HK HK0 HB0 HH0 Hcipher HB.
  assert (Hlen : ∀ l rest, New conn hkdf server = Some (l, rest) →
            Z.of_nat (length hkdf) =
              2 * (K + B + HashSize) + Z.of_nat (length rest)).
  { intros l rest (sc & sm & hkdf1 & cc & cm & H1 & H2 & _)%New_inv.
    apply (makeHalfDuplex_length _ K B) in H1, H2; try done. lia. }
  split; [split|].
  - intros [[l rest] Hnew]. specialize (Hlen l rest Hnew). lia.
  - intros Hlong. unfold New.
    destruct (makeHalfDuplex_Some hkdf K B) as (sc & sm & r1 & -> & Hr1);
      try done; [lia|].
    simpl.
    destruct (makeHalfDuplex_Some r1 K B) as (cc & cm & r2 & -> & Hr2);
      try done; [lia|].
    simpl. by destruct server.
  - intros l rest Hnew. specialize (Hlen l rest Hnew). lia.
Qed.

(** ** The receiver worker *)

Lemma RecvDirect_inbox l l' msg :
  RecvDirect l = (l', Ok msg) →
  ∃ c d t, inbox (socket l) = c :: d :: t :: inbox (socket l').
Proof.
  intros (c & d & t & rest & dec & rem & _ & Hin & _ & _ & _ & _ & ->)%RecvDirect_Ok_inv.
  by exists c, d, t.
Qed.

(** The fuel of [receiver] never runs out. *)
Lemma receiver_loop_total fuel : ∀ accepts l,
  (length (inbox (socket l)) < fuel)%nat →
  ∃ r, receiver_loop fuel accepts l = Some r.
Proof.
  induction fuel as [|fuel IH]; intros accepts l Hfuel; [lia|]. simpl.
  destruct (RecvDirect l) as [l1 [msg|e]] eqn:Hrecv; [|eauto].
  destruct (is_closePacket _); [eauto|].
  apply RecvDirect_inbox in Hrecv as (c & d & t & Hin).
  rewrite Hin in Hfuel. simpl in Hfuel.
  destruct accepts as [[|k]|]; [eauto| |].
  - destruct (IH (Some k) l1) as [[[l2 msgs] e] ->]; [lia|]. simpl. eauto.
  - destruct (IH None l1) as [[[l2 msgs] e] ->]; [lia|]. simpl. eauto.
Qed.

Lemma receiver_total accepts l : ∃ r, receiver accepts l = Some r.
Proof. apply receiver_loop_total. lia. Qed.

Lemma foldr_delivered msgs l (rest : list Message) (e : result unit) :
  foldr delivered (Some (l, rest, e)) msgs = Some (l, msgs ++ rest, e).
Proof. induction msgs as [|msg msgs IH]; [done|]. simpl. by rewrite IH. Qed.

(** As long as the upstream takes them, the messages that are not the
    close message are sent on, one after the other. *)
Lemma receiver_loop_recvAll n : ∀ fuel accepts l l1 msgs,
  recvAll n l = (l1, Ok msgs) →
  Forall (λ msg, is_closePacket (Meta (Head msg)) = false) msgs →
  (∀ k, accepts = Some k → (n ≤ k)%nat) →
  receiver_loop (n + fuel) accepts l =
    foldr delivered (receiver_loop fuel ((λ k, k - n)%nat <$> accepts) l1) msgs.
Proof.
  induction n as [|n IH]; intros fuel accepts l l1 msgs Hrun Hopen Hacc.
  - injection Hrun as <- <-. simpl.
    destruct accepts as [k|]; simpl; [|done]. by rewrite Nat.sub_0_r.
  - apply recvAll_S_Ok in Hrun as (l2 & msg & msgs' & Hrecv & Hrun & ->).
    apply Forall_cons in Hopen as [Hmsg Hopen].
    simpl. rewrite Hrecv, Hmsg.
    destruct accepts as [[|k]|]; simpl.
    + specialize (Hacc 0%nat eq_refl). lia.
    + rewrite (IH fuel (Some k) l2 l1 msgs') by
        (done || (intros ? [= <-]; specialize (Hacc _ eq_refl); lia)).
      done.
    + by rewrite (IH fuel None l2 l1 msgs').
Qed.

End link_more.

Section receiver_facts.
Context `{C : PairedCodec}.

#[local] Abbreviation Message := (Message HeaderFields OtherMeta).

Implicit Types (l a b : Link) (msg : Message) (msgs : list Message).

Lemma frames_since_sendAll a a1 a2 msgs1 msgs2 :
  sendAll msgs1 a = (a1, Ok ()) → sendAll msgs2 a1 = (a2, Ok ()) →
  frames_since a a2 = frames_since a a1 ++ frames_since a1 a2.
Proof.
  intros (fs1 & Hout1 & _)%sendAll_chain (fs2 & Hout2 & _)%sendAll_chain.
  rewrite (frames_since_app _ _ _ Hout1), (frames_since_app _ _ _ Hout2).
  apply frames_since_app. rewrite Hout2, Hout1. by rewrite <-app_assoc.
Qed.

Lemma open_heads msgs msgs' :
  Head <$> msgs' = Head <$> msgs →
  Forall (λ msg, Meta (Head msg) ≠ closePacket) msgs →
  Forall (λ msg, is_closePacket (Meta (Head msg)) = false) msgs'.
Proof.
  revert msgs. induction msgs' as [|m' msgs' IH]; intros [|m msgs] Heq Hopen;
    try done.
  rewrite !fmap_cons in Heq. injection Heq as Hh Heq.
  apply Forall_cons in Hopen as [Hm Hopen]. constructor; [|by eapply IH].
  rewrite Hh. by destruct (Meta (Head m)).
Qed.

Lemma recvAll_length n : ∀ l l' msgs,
  recvAll n l = (l', Ok msgs) →
  (3 * n ≤ length (inbox (socket l)))%nat ∧
  inbox (socket l') = drop (3 * n) (inbox (socket l)).
Proof.
  intros l l' msgs (fs & Hin & Hlen & _)%recvAll_chain.
  rewrite Hin, length_app, <-Hlen. split; [lia|]. by rewrite drop_app_length.
Qed.

(** X11. Graceful close. When the sender worker of [a] has sent the messages
    it took from [l.Send], none of them with the close packet as [Meta],
    and has reported no error, the receiver worker of a link [b] in step
    with [a], whose reader takes every message, sends the messages on in
    the order of the sends, with their headers and payloads, marked secure;
    it ends at the close message, which it does not send on, with no frame
    left and no error. *)
Theorem graceful_close a b taken pending a' :
  synced a b → sender taken pending a = (a', Ok ()) →
  Forall (λ msg, Meta (Head msg) ≠ closePacket) (taken ++ pending) →
  fault (socket b) = None → inbox (socket b) = frames_since a a' →
  ∃ b' msgs', receiver None b = Some (b', msgs', Ok ()) ∧
              Head <$> msgs' = Head <$> (taken ++ pending) ∧
              Data <$> msgs' = Data <$> (taken ++ pending) ∧
              Forall (λ msg', secure msg' = true) msgs' ∧
              inbox (socket b') = [].
Proof.
  intros Hsync Hsender Hopen Hfault Hinbox.
  rewrite sender_sendAll, app_assoc, sendAll_app in Hsender.
  destruct (sendAll (taken ++ pending) a) as [a1 r] eqn:Hall.
  destruct r as [[]|e]; [|done].
  pose proof Hsender as Hclose.
  apply sendAll_cons_Ok in Hclose as (a2 & Hclose & [= ->]).
  rewrite (frames_since_sendAll _ _ _ _ _ Hall Hsender) in Hinbox.
  destruct (round_trip_all _ _ _ _ _ Hsync Hall Hfault Hinbox)
    as (b1 & msgs' & Hrecvs & Hh & Hd & Hs & Hsync1 & Hfault1 & Hinbox1).
  rewrite <-(app_nil_r (frames_since a1 a')) in Hinbox1.
  destruct (round_trip_one _ _ _ _ _ Hsync1 Hclose Hfault1 Hinbox1)
    as (b' & msg' & Hrecv & Hh' & _ & _ & _ & _ & Hinbox').
  exists b', msgs'. split_and!; try done.
  destruct (recvAll_length _ _ _ _ Hrecvs) as [Hlen _].
  unfold receiver.
  replace (S (length (inbox (socket b))))
    with (length (taken ++ pending) +
          S (length (inbox (socket b)) - length (taken ++ pending)))%nat by lia.
  rewrite (receiver_loop_recvAll _ _ None b b1 msgs' Hrecvs);
    [|by eapply open_heads|done].
  simpl. rewrite Hrecv, Hh'. simpl.
  by rewrite foldr_delivered, app_nil_r.
Qed.

(** X12. The receiver worker ends at the first message that is refused.  When
    the frames of messages sent by [a] are followed by a header frame, a
    payload and a tag that is not the digest of the inbound MAC, the
    messages are sent on, the worker reports the MAC mismatch, and the
    frames that follow are left on the transport: nothing is sent on after
    the refused message. *)
Theorem receiver_stops_at_refused_message a b msgs a' c d t rest :
  synced a b → sendAll msgs a = (a', Ok ()) →
  Forall (λ msg, Meta (Head msg) ≠ closePacket) msgs →
  fault (socket b) = None →
  inbox (socket b) = frames_since a a' ++ c :: d :: t :: rest →
  let digest := hmac_digest (salt (outMacer a')) (written (outMacer a') ++ c ++ d) in
  t ≠ digest →
  ∃ b' msgs', receiver None b = Some (b', msgs', Err (mac_mismatch digest t)) ∧
              Head <$> msgs' = Head <$> msgs ∧
              Data <$> msgs' = Data <$> msgs ∧
              inbox (socket b') = rest.
Proof.
  intros Hsync Hall Hopen Hfault Hinbox digest Hne. subst digest.
  destruct (round_trip_all _ _ _ _ _ Hsync Hall Hfault Hinbox)
    as (b1 & msgs' & Hrecvs & Hh & Hd & Hs & Hsync1 & Hfault1 & Hinbox1).
  destruct Hsync1 as (_ & Hm & _). rewrite Hm, <-mac_Sum_after in Hne.
  exists (verified b1 c d t rest), msgs'. split_and!; try done.
  destruct (recvAll_length _ _ _ _ Hrecvs) as [Hlen _].
  unfold receiver.
  replace (S (length (inbox (socket b))))
    with (length msgs + S (length (inbox (socket b)) - length msgs))%nat by lia.
  rewrite (receiver_loop_recvAll _ _ None b b1 msgs' Hrecvs);
    [|by eapply open_heads|done].
  simpl. rewrite (RecvDirect_mismatch b1 c d t rest Hfault1 Hinbox1 Hne).
  rewrite foldr_delivered, app_nil_r, Hm. by rewrite mac_Sum_after.
Qed.

(** X13. When the reader of [l.Recv] takes [k] messages and no more, and the
    shutdown request comes, the receiver worker has sent on the first [k]
    messages and reports no error; the message after them has been taken
    from the transport and verified, and is not sent on: its frames are
    gone from the transport with those of the [k] messages. *)
Theorem receiver_quit_drops_one_message a b msgs a' rest (k : nat) :
  synced a b → sendAll msgs a = (a', Ok ()) →
  Forall (λ msg, Meta (Head msg) ≠ closePacket) msgs →
  fault (socket b) = None →
  inbox (socket b) = frames_since a a' ++ rest →
  (k < length msgs)%nat →
  ∃ b' msgs', receiver (Some k) b = Some (b', msgs', Ok ()) ∧
              Head <$> msgs' = Head <$> take k msgs ∧
              Data <$> msgs' = Data <$> take k msgs ∧
              inbox (socket b') = drop (3 * (k + 1)) (inbox (socket b)).
Proof.
  intros Hsync Hall Hopen Hfault Hinbox Hk.
  rewrite <-(take_drop k msgs) in Hall, Hopen.
  destruct (drop k msgs) as [|msg post] eqn:Hdrop.
  { apply (f_equal length) in Hdrop. rewrite length_drop in Hdrop.
    simpl in Hdrop. lia. }
  rewrite sendAll_app in Hall.
  destruct (sendAll (take k msgs) a) as [a1 r] eqn:Hpre.
  destruct r as [[]|e]; [|done].
  apply Forall_app in Hopen as [Hopen1 Hopen2].
  apply Forall_cons in Hopen2 as [Hmsg _].
  pose proof Hall as Hall'.
  apply sendAll_cons_Ok in Hall' as (a2 & Hsend & Hpost).
  rewrite (frames_since_sendAll _ _ _ _ _ Hpre Hall), <-app_assoc in Hinbox.
  destruct (round_trip_all _ _ _ _ _ Hsync Hpre Hfault Hinbox)
    as (b1 & msgs' & Hrecvs & Hh & Hd & Hs & Hsync1 & Hfault1 & Hinbox1).
  assert (Hone : sendAll [msg] a1 = (a2, Ok ())).
  { simpl. unfold mbind, M_bind. by rewrite Hsend. }
  rewrite (frames_since_sendAll _ _ _ _ _ Hone Hpost), <-app_assoc in Hinbox1.
  destruct (round_trip_one _ _ _ _ _ Hsync1 Hsend Hfault1 Hinbox1)
    as (b2 & msg' & Hrecv & Hh' & _ & _ & _ & _ & Hinbox2).
  exists b2, msgs'. split_and!; try done.
  - destruct (recvAll_length _ _ _ _ Hrecvs) as [Hlen _].
    rewrite length_take, Nat.min_l in Hrecvs, Hlen by lia.
    unfold receiver.
    replace (S (length (inbox (socket b))))
      with (k + S (length (inbox (socket b)) - k))%nat by lia.
    rewrite (receiver_loop_recvAll _ _ (Some k) b b1 msgs' Hrecvs);
      [|by eapply open_heads|by intros ? [= <-]].
    simpl. rewrite Nat.sub_diag, Hrecv, Hh'.
    replace (is_closePacket (Meta (Head msg))) with false
      by (by destruct (Meta (Head msg))).
    by rewrite foldr_delivered, app_nil_r.
  - rewrite length_take, Nat.min_l in Hrecvs by lia.
    destruct (recvAll_length _ _ _ _ Hrecvs) as [Hlen Hdrop1].
    apply RecvDirect_inbox in Hrecv as (c0 & d0 & t0 & Hin).
    rewrite Hdrop1 in Hin.
    replace (3 * (k + 1))%nat with (3 * k + 3)%nat by lia.
    rewrite <-drop_drop, Hin. done.
Qed.

End receiver_facts.

(** ** Concrete runs, on the instance [Toy.toy] *)

Import Toy.

Lemma toy_Encode_Decode (enc dec : nat) head enc' (bs : bytes) :
  enc = dec → toy_Encode enc head = (enc', bs, None) →
  ∃ dec', toy_Decode dec bs = (dec', [], Ok head) ∧ enc' = dec'.
Proof.
  intros <- [= <- <-]. exists (S enc). split; [|done].
  destruct head as [m f]. by destruct enc, m.
Qed.

#[export] Instance toy_paired : PairedCodec (E := toy) := {|
  paired := @eq nat;
  paired_New := eq_refl;
  paired_Encode_Decode := toy_Encode_Decode
|}.

Example New_server0 : New conn0 hkdf0 true = Some (server0, [x0d]).
Proof. reflexivity. Qed.

Example New_client0 : New conn0 hkdf0 false = Some (client0, [x0d]).
Proof. reflexivity. Qed.

(** The digest that [tagged] compares the received tag with. *)
Example tagged_digest (t : bytes) :
  mac_Sum (mac_after (inMacer (tagged t)) [x00] [x01]) = [x02; xfe].
Proof. reflexivity. Qed.

(** C4, as stated, fails: the comparison is not constant-time.  Of two
    received tags of the length of the digest, both refused, the one that
    differs from the digest in its first byte is compared in one step, the
    one that differs in its second byte only in two. *)
Lemma mac_comparison_is_not_constant_time :
  ¬ (∀ t t' : bytes, length t = length t' →
       mac_compare_steps (tagged t) = mac_compare_steps (tagged t')).
Proof.
  intros Hconst. specialize (Hconst [x00; xfe] [x02; x00] eq_refl).
  vm_compute in Hconst. discriminate.
Qed.

Example mac_comparison_steps :
  mac_compare_steps (tagged [x00; xfe]) = Some 1%nat ∧
  mac_compare_steps (tagged [x02; x00]) = Some 2%nat ∧
  (RecvDirect (tagged [x00; xfe])).2 =
    Err "mac mismatch: have [2 254], want [0 254]."%string ∧
  (RecvDirect (tagged [x02; x00])).2 =
    Err "mac mismatch: have [2 254], want [2 0]."%string.
Proof. by vm_compute. Qed.

Lemma mac_mismatch_is_refused_witness :
  fault (socket (tagged [x02; x00])) = None ∧
  inbox (socket (tagged [x02; x00])) = [[x00]; [x01]; [x02; x00]] ∧
  [x02; x00] ≠ [x02; xfe] ∧
  bytes_Equal [x02; x00] [x02; xfe] = false ∧
  (RecvDirect (tagged [x02; x00])).2 =
    Err "mac mismatch: have [2 254], want [2 0]."%string.
Proof.
  split; [reflexivity|]. split; [reflexivity|]. split; [discriminate|].
  apply (mac_mismatch_is_refused (E:=toy) (tagged [x02; x00])
           [x00] [x01] [x02; x00] []);
    [reflexivity|reflexivity|discriminate].
Defined.

Lemma unsecured_send_denied_witness :
  Secure unsecured = false ∧ Data unsecured ≠ [] ∧
  (SendDirect unsecured server0).2 = Err "unsecured data, send denied"%string ∧
  socket (SendDirect unsecured server0).1 = socket server0.
Proof.
  split; [reflexivity|]. split; [discriminate|].
  apply (unsecured_send_denied (E:=toy) unsecured server0);
    [reflexivity|discriminate].
Defined.

Lemma unsecured_refusal_is_atomic_witness :
  Secure unsecured = false ∧ Data unsecured ≠ [] ∧
  let l' := (SendDirect unsecured server0).1 in
  outCipher l' = outCipher server0 ∧ outMacer l' = outMacer server0 ∧
  outBuffer l' = outBuffer server0 ∧ l' = server0 ∧
  ∀ msg', SendDirect msg' l' = SendDirect msg' server0.
Proof.
  split; [reflexivity|]. split; [discriminate|].
  apply (unsecured_refusal_is_atomic (E:=toy) unsecured server0);
    [reflexivity|discriminate].
Defined.

Lemma New_assigns_halves_by_role_witness :
  New conn0 hkdf0 true = Some (server0, [x0d]) ∧
  ∀ conn' l' rest',
    New conn' hkdf0 (negb true) = Some (l', rest') →
    inCipher server0 = outCipher l' ∧ inMacer server0 = outMacer l' ∧
    outCipher server0 = inCipher l' ∧ outMacer server0 = inMacer l' ∧
    rest' = [x0d].
Proof.
  split; [reflexivity|].
  apply (New_assigns_halves_by_role (E:=toy) conn0 hkdf0 true server0 [x0d]).
  reflexivity.
Defined.

Lemma send_recv_round_trip_witness :
  let msgs := [msg1; msg2; closeMessage] in
  synced server0 client3 ∧ sendAll msgs server0 = (sent3, Ok ()) ∧
  ∃ b' msgs', recvAll 3 client3 = (b', Ok msgs') ∧
              Head <$> msgs' = Head <$> msgs ∧
              Data <$> msgs' = Data <$> msgs ∧
              Forall (λ msg', secure msg' = true) msgs' ∧
              synced sent3 b' ∧ inbox (socket b') = [].
Proof.
  assert (Hsync : synced server0 client3) by (by repeat split).
  split; [exact Hsync|]. split; [by vm_compute|].
  apply (send_recv_round_trip (C:=toy_paired) server0 client3
           [msg1; msg2; closeMessage] sent3 []);
    [exact Hsync|by vm_compute|by vm_compute|by vm_compute].
Defined.

Lemma mac_state_chains_messages_witness :
  let msgs := [msg1; msg2] in
  let l' := (sendAll msgs server0).1 in
  let r := with_frames (frames_since server0 l') client0 in
  let r' := (recvAll 2 r).1 in
  sendAll msgs server0 = (l', Ok ()) ∧
  recvAll 2 r = (r', Ok [KnownSecure msg1; KnownSecure msg2]) ∧
  tags_chain (salt (outMacer server0)) (written (outMacer server0))
    (frames_since server0 l') ∧
  outMacer l' = mac_Write (outMacer server0) (mac_input (frames_since server0 l')).
Proof.
  intros msgs l' r r'.
  assert (Hsend : sendAll msgs server0 = (l', Ok ())) by (by vm_compute).
  assert (Hrecv : recvAll 2 r = (r', Ok [KnownSecure msg1; KnownSecure msg2]))
    by (by vm_compute).
  split; [exact Hsend|]. split; [exact Hrecv|].
  destruct (mac_state_chains_messages (E:=toy) msgs server0 l' 2 r r'
              [KnownSecure msg1; KnownSecure msg2] Hsend Hrecv)
    as [(_ & _ & Hchain & Hmac & _) _].
  split; [exact Hchain|exact Hmac].
Defined.

Lemma sender_flushes_then_closes_witness :
  let l1 := (serve [msg1] server0).1 in
  serve [msg1] server0 = (l1, Ok ()) ∧
  sender [msg1] [msg2; msg1] server0 =
    sendAll ([msg2; msg1] ++ [closeMessage]) l1.
Proof.
  intros l1. split; [by vm_compute|].
  apply (sender_flushes_then_closes (E:=toy) [msg1] [msg2; msg1] server0 l1).
  by vm_compute.
Defined.

(** ** Concrete runs of the further properties *)

Lemma New_needs_two_triples_witness :
  Z.quot (SessionCipherBits (Env:=toy)) 8 = 2 ∧
  (is_Some (New conn0 hkdf0 true) ↔
     2 * (2 + 2 + HashSize (Env:=toy)) ≤ Z.of_nat (length hkdf0)) ∧
  ∀ l rest, New conn0 hkdf0 true = Some (l, rest) →
    Z.of_nat (length rest) =
      Z.of_nat (length hkdf0) - 2 * (2 + 2 + HashSize (Env:=toy)).
Proof.
  split; [reflexivity|].
  apply (New_needs_two_triples (E:=toy) conn0 hkdf0 true 2 2);
    [reflexivity|lia|lia|discriminate| |].
  - intros key _. by exists key.
  - by intros key blk _.
Defined.

Lemma failed_send_is_not_undone_witness :
  sendable msg1 ∧ fault (socket broken0) = Some "broken pipe"%string ∧
  (SendDirect msg1 broken0).2 = Err "broken pipe"%string ∧
  socket (SendDirect msg1 broken0).1 = socket broken0 ∧
  outMacer (SendDirect msg1 broken0).1 =
    mac_after (outMacer broken0) (header_frame broken0 [xff; x02; x07; x11])
      (Data msg1).
Proof.
  assert (Hs : sendable msg1) by (by right).
  split; [exact Hs|]. split; [reflexivity|].
  destruct (failed_send_is_not_undone (E:=toy) msg1 broken0 1%nat
              [xff; x02; x07; x11] "broken pipe"%string Hs eq_refl eq_refl)
    as (Herr & Hsock & _ & _ & Hmac & _).
  split; [exact Herr|]. split; [exact Hsock|exact Hmac].
Defined.

Lemma encode_failure_taints_next_header_witness :
  let l' := (SendDirect unregistered strict0).1 in
  let l'' := (SendDirect registered l').1 in
  sendable unregistered ∧ SendDirect registered l' = (l'', Ok ()) ∧
  outBuffer l' = [xff] ∧
  ∃ enc' bs',
    strict_Encode O (Head registered) = (enc', bs', None) ∧
    frames_since l' l'' !! 0%nat =
      Some (XORKeyStream (outCipher strict0) ([] ++ [xff] ++ bs')).2.
Proof.
  intros l' l''.
  assert (Hs : sendable unregistered) by (by left).
  assert (Hnext : SendDirect registered l' = (l'', Ok ())) by (by vm_compute).
  split; [exact Hs|]. split; [exact Hnext|].
  destruct (encode_failure_taints_next_header (E:=toy_strict) unregistered
              strict0 O [xff] "gob: type not registered for interface"%string
              registered l'' Hs eq_refl Hnext)
    as (_ & _ & _ & _ & Hbuf & Hframe).
  split; [exact Hbuf|exact Hframe].
Defined.

Lemma recv_failure_keeps_crypto_state_witness :
  (length (inbox (socket client0)) < 3)%nat ∧
  (∃ e, (RecvDirect client0).2 = Err e) ∧
  inCipher (RecvDirect client0).1 = inCipher client0 ∧
  inMacer (RecvDirect client0).1 = inMacer client0.
Proof.
  assert (Hshort : (length (inbox (socket client0)) < 3)%nat) by (simpl; lia).
  split; [exact Hshort|].
  destruct (recv_failure_keeps_crypto_state (E:=toy) client0 (or_intror Hshort))
    as (Herr & Hc & Hm & _).
  split; [exact Herr|]. split; [exact Hc|exact Hm].
Defined.

Lemma sender_stops_at_unsecured_witness :
  let l1 := (sendAll [msg1] server0).1 in
  [msg1] ++ [unsecured; msg2] = [msg1] ++ unsecured :: [msg2] ∧
  sendAll [msg1] server0 = (l1, Ok ()) ∧
  sender [msg1] [unsecured; msg2] server0 =
    (l1, Err "unsecured data, send denied"%string) ∧
  length (frames_since server0 l1) = 3%nat.
Proof.
  intros l1.
  assert (Hpre : sendAll [msg1] server0 = (l1, Ok ())) by (by vm_compute).
  split; [reflexivity|]. split; [exact Hpre|].
  destruct (sender_stops_at_unsecured (E:=toy) [msg1] [unsecured; msg2]
              [msg1] unsecured [msg2] server0 l1 eq_refl Hpre eq_refl
              ltac:(discriminate))
    as (Hsender & Hlen & _).
  split; [exact Hsender|exact Hlen].
Defined.

Lemma graceful_close_witness :
  synced server0 closing0 ∧
  sender [msg1] [msg2] server0 = (closed0, Ok ()) ∧
  ∃ b' msgs', receiver None closing0 = Some (b', msgs', Ok ()) ∧
              Head <$> msgs' = Head <$> ([msg1] ++ [msg2]) ∧
              Data <$> msgs' = Data <$> ([msg1] ++ [msg2]) ∧
              Forall (λ msg', secure msg' = true) msgs' ∧
              inbox (socket b') = [].
Proof.
  assert (Hsync : synced server0 closing0) by (by repeat split).
  assert (Hsender : sender [msg1] [msg2] server0 = (closed0, Ok ()))
    by (by vm_compute).
  split; [exact Hsync|]. split; [exact Hsender|].
  apply (graceful_close (C:=toy_paired) server0 closing0 [msg1] [msg2] closed0
           Hsync Hsender).
  - repeat constructor; discriminate.
  - reflexivity.
  - by vm_compute.
Defined.

Lemma receiver_stops_at_refused_message_witness :
  synced server0 tampered0 ∧
  sendAll [msg1; msg2] server0 = (sent2, Ok ()) ∧
  [x00; x00] ≠ hmac_digest (Env:=toy) (salt (outMacer sent2))
                 (written (outMacer sent2) ++ [x00] ++ [x01]) ∧
  ∃ b' msgs', receiver None tampered0 =
                Some (b', msgs',
                      Err (mac_mismatch
                             (hmac_digest (Env:=toy) (salt (outMacer sent2))
                                (written (outMacer sent2) ++ [x00] ++ [x01]))
                             [x00; x00])) ∧
              Head <$> msgs' = Head <$> [msg1; msg2] ∧
              Data <$> msgs' = Data <$> [msg1; msg2] ∧
              inbox (socket b') = [[x09]].
Proof.
  assert (Hsync : synced server0 tampered0) by (by repeat split).
  assert (Hall : sendAll [msg1; msg2] server0 = (sent2, Ok ()))
    by (by vm_compute).
  assert (Hne : [x00; x00] ≠ hmac_digest (Env:=toy) (salt (outMacer sent2))
                  (written (outMacer sent2) ++ [x00] ++ [x01]))
    by (vm_compute; discriminate).
  split; [exact Hsync|]. split; [exact Hall|]. split; [exact Hne|].
  apply (receiver_stops_at_refused_message (C:=toy_paired) server0 tampered0
           [msg1; msg2] sent2 [x00] [x01] [x00; x00] [[x09]] Hsync Hall).
  - repeat constructor; discriminate.
  - reflexivity.
  - by vm_compute.
  - exact Hne.
Defined.

Lemma receiver_quit_drops_one_message_witness :
  synced server0 client2 ∧
  sendAll [msg1; msg2] server0 = (sent2, Ok ()) ∧
  ∃ b' msgs', receiver (Some 1%nat) client2 = Some (b', msgs', Ok ()) ∧
              Head <$> msgs' = Head <$> take 1 [msg1; msg2] ∧
              Data <$> msgs' = Data <$> take 1 [msg1; msg2] ∧
              inbox (socket b') = drop (3 * (1 + 1)) (inbox (socket client2)).
Proof.
  assert (Hsync : synced server0 client2) by (by repeat split).
  assert (Hall : sendAll [msg1; msg2] server0 = (sent2, Ok ()))
    by (by vm_compute).
  split; [exact Hsync|]. split; [exact Hall|].
  apply (receiver_quit_drops_one_message (C:=toy_paired) server0 client2
           [msg1; msg2] sent2 [] 1%nat Hsync Hall).
  - repeat constructor; discriminate.
  - reflexivity.
  - by vm_compute.
  - simpl. lia.
Defined.

End LinkFacts.
